(** * A first-fit allocator on top of [sbrk]: model of [malloc_in_c_implementation.c]

    The development embeds [request_memory] and [my_malloc] as functions on an
    explicit machine state and proves the properties of the allocator that the
    design document states about them.

    Data model (LP64, the ABI the program is written for):
    - [int] is 32 bits wide, [size_t] and pointers are 64 bits wide;
    - [struct Block] has the fields [size] (8 bytes), [next] (8 bytes) and
      [is_free] (4 bytes, padded to 8), hence [sizeof(Block) = 24];
    - memory is seen at the granularity of block headers: a finite map from
      the address of a header to its three fields.  A header that was never
      written is absent from the map, and reading through such a pointer is
      undefined behaviour, which the model reports as [None]. *)

From Stdlib Require Import ZArith List Bool Lia.
From stdpp Require Import gmap.

Local Open Scope Z_scope.

(** ** C integer types *)

Definition INT_MIN : Z := - 2 ^ 31.
Definition INT_MAX : Z := 2 ^ 31 - 1.
Definition SIZE_MODULUS : Z := 2 ^ 64.

(** A value of type [int]. *)
Definition int_range (z : Z) : Prop := INT_MIN <= z <= INT_MAX.

(** Conversion of an integer to [size_t]: reduction modulo [2^64]. *)
Definition to_size_t (z : Z) : Z := z mod SIZE_MODULUS.

(** Unsigned 64-bit addition and subtraction. *)
Definition size_t_add (a b : Z) : Z := (a + b) mod SIZE_MODULUS.
Definition size_t_sub (a b : Z) : Z := (a - b) mod SIZE_MODULUS.

(** ** Pointers and block headers *)

Definition NULL : Z := 0.

(** [sizeof(Block)] under LP64. *)
Definition sizeof_Block : Z := 24.

Module Block.

(** [typedef struct Block { size_t size; struct Block *next; int is_free; }] *)
Record t : Type := mk { size : Z; next : Z; is_free : Z }.

(** The header [b] after [b.size = v], [b.next = v] and [b.is_free = v]. *)
Definition set_size (v : Z) (b : t) : t :=
  {| size := v; next := next b; is_free := is_free b |}.

Definition set_next (v : Z) (b : t) : t :=
  {| size := size b; next := v; is_free := is_free b |}.

Definition set_is_free (v : Z) (b : t) : t :=
  {| size := size b; next := next b; is_free := v |}.

End Block.

(** ** Machine state *)

(** The value [(void * )-1] by which [sbrk] reports failure. *)
Definition SBRK_FAILED : Z := SIZE_MODULUS - 1.

(** - [free_list]: the global [static Block *free_list];
    - [heap]: the block headers in memory;
    - [brk], [brk_limit]: the program break and the highest break the
      operating system is willing to grant;
    - [sbrk_log]: every call of [sbrk] so far, newest first, as the pair of
      the increment asked for and the pointer returned. *)
Record state : Type := mkState {
  free_list : Z;
  heap : gmap Z Block.t;
  brk : Z;
  brk_limit : Z;
  sbrk_log : list (Z * Z)
}.

Definition set_free_list (p : Z) (s : state) : state :=
  {| free_list := p; heap := heap s; brk := brk s;
     brk_limit := brk_limit s; sbrk_log := sbrk_log s |}.

Definition set_heap (h : gmap Z Block.t) (s : state) : state :=
  {| free_list := free_list s; heap := h; brk := brk s;
     brk_limit := brk_limit s; sbrk_log := sbrk_log s |}.

(** State of the process before the first call: no header was written, the
    catalog head is [NULL], no system call was made. *)
Definition initial_state (brk0 limit : Z) : state :=
  {| free_list := NULL; heap := ∅; brk := brk0;
     brk_limit := limit; sbrk_log := [] |}.

(** ** The operating system: [sbrk]

    [sbrk(increment)] moves the program break by [increment] bytes and returns
    the previous break; when the new break would pass the limit it changes
    nothing and returns [(void * )-1]. *)
Definition sbrk (increment : Z) (s : state) : Z * state :=
  if brk s + increment <=? brk_limit s then
    (brk s,
     {| free_list := free_list s; heap := heap s;
        brk := brk s + increment; brk_limit := brk_limit s;
        sbrk_log := (increment, brk s) :: sbrk_log s |})
  else
    (SBRK_FAILED,
     {| free_list := free_list s; heap := heap s;
        brk := brk s; brk_limit := brk_limit s;
        sbrk_log := (increment, SBRK_FAILED) :: sbrk_log s |}).

(** ** [request_memory] (lines 20-26)

    The size arrives as a [size_t] and reaches [sbrk] as an [intptr_t]: up
    to [INTPTR_MAX] the conversion changes nothing, and the model stands
    for these sizes.  [my_malloc] asks for [size + sizeof(Block)] bytes with
    [size] of type [int] and not negative, far below [INTPTR_MAX]. *)
Definition request_memory (size : Z) (s : state) : Z * state :=
  let '(ptr, s1) := sbrk size s in
  if ptr =? SBRK_FAILED then (NULL, s1) else (ptr, s1).

(** ** Memory accesses

    The heap maps the address of a header to the header stored there, so a
    store to one header leaves every other entry as it is.  This stands for
    the memory of the program as long as the blocks concerned do not overlap;
    the theorems about the paths that store headers (taking, splitting,
    extending) assume it, through [separate] or [consistent] below. *)

(** Initialising all three fields of a header in fresh memory. *)
Definition store_block (p : Z) (b : Block.t) (s : state) : state :=
  set_heap (<[p := b]> (heap s)) s.

(** Assignment to one field of an existing header, [p->field = v]. *)
Definition update_block (p : Z) (f : Block.t -> Block.t) (s : state)
  : option state :=
  match heap s !! p with
  | Some b => Some (set_heap (<[p := f b]> (heap s)) s)
  | None => None
  end.

(** ** [my_malloc] (lines 28-131) *)

(** The test of line 78: [current->is_free == 1 && current->size > size],
    the comparison being made in [size_t]. *)
Definition qualifies (size : Z) (b : Block.t) : bool :=
  (Block.is_free b =? 1) && (to_size_t size <? Block.size b).

(** The [while] loop of lines 75-110, followed up to the point where it is
    left: the result is the pair [(current, previous)] there.  The loop is left
    with [current = NULL] when the catalog is exhausted, and with [current]
    pointing to the block that passed the test of line 78 otherwise.  Each
    execution of the loop body consumes one unit of [fuel]. *)
Fixpoint search (fuel : nat) (size : Z) (h : gmap Z Block.t)
    (current previous : Z) : option (Z * Z) :=
  if current =? NULL then Some (current, previous)
  else
    match fuel with
    | O => None
    | S fuel' =>
        match h !! current with
        | None => None
        | Some b =>
            if qualifies size b then Some (current, previous)
            else search fuel' size h (Block.next b) current
        end
    end.

(** The test of line 83: [current->size > size + sizeof(Block) + 1]. *)
Definition too_big (size : Z) (b : Block.t) : bool :=
  size_t_add (size_t_add (to_size_t size) sizeof_Block) 1 <? Block.size b.

(** Lines 80-103: the block at [current] passed the test. *)
Definition take_block (size current : Z) (s : state) : option (Z * state) :=
  s1 ← update_block current (Block.set_is_free 0) s;
  b ← heap s1 !! current;
  if too_big size b then
    let new_block := current + sizeof_Block + size in
    let s2 :=
      store_block new_block
        {| Block.size :=
             size_t_sub (size_t_sub (Block.size b) sizeof_Block)
                        (to_size_t size);
           Block.next := Block.next b;
           Block.is_free := 1 |} s1 in
    s3 ← update_block current (Block.set_next new_block) s2;
    s4 ← update_block current (Block.set_size (to_size_t size)) s3;
    Some (current + sizeof_Block, s4)
  else Some (current + sizeof_Block, s1).

(** Lines 111-129: the catalog was exhausted. *)
Definition extend_heap (size total_size previous : Z) (s : state)
  : option (Z * state) :=
  let '(newblock, s1) := request_memory total_size s in
  if newblock =? NULL then Some (NULL, s1)
  else
    let s2 :=
      store_block newblock
        {| Block.size := to_size_t size; Block.next := NULL;
           Block.is_free := 0 |} s1 in
    if negb (previous =? NULL) then
      s3 ← update_block previous (Block.set_next newblock) s2;
      Some (newblock + sizeof_Block, s3)
    else Some (newblock + sizeof_Block, s2).

(** Lines 72-129. *)
Definition search_and_allocate (fuel : nat) (size total_size : Z) (s : state)
  : option (Z * state) :=
  '(current, previous) ← search fuel size (heap s) (free_list s) NULL;
  if negb (current =? NULL) then take_block size current s
  else extend_heap size total_size previous s.

(** The whole function.  [None] stands for undefined behaviour (a header read
    through a pointer to memory that holds none) or for a walk that did not
    end within [fuel] loop iterations. *)
Definition my_malloc (fuel : nat) (size : Z) (s : state)
  : option (Z * state) :=
  if size <? 0 then Some (NULL, s)
  else
    let total_size := size_t_add (to_size_t size) sizeof_Block in
    if free_list s =? NULL then
      let '(newblock, s1) := request_memory total_size s in
      if newblock =? NULL then Some (NULL, s1)
      else
        let s2 :=
          store_block newblock
            {| Block.size := to_size_t size; Block.next := NULL;
               Block.is_free := 0 |} s1 in
        let s3 := set_free_list NULL s2 in
        if negb (newblock =? NULL) then Some (newblock + sizeof_Block, s3)
        else search_and_allocate fuel size total_size s3
    else search_and_allocate fuel size total_size s.

(** The state after a call of [sbrk] that was refused. *)
Definition sbrk_refused (increment : Z) (s : state) : state :=
  {| free_list := free_list s; heap := heap s; brk := brk s;
     brk_limit := brk_limit s;
     sbrk_log := (increment, SBRK_FAILED) :: sbrk_log s |}.

(** The state after a call of [sbrk] that was granted. *)
Definition sbrk_granted (increment : Z) (s : state) : state :=
  {| free_list := free_list s; heap := heap s; brk := brk s + increment;
     brk_limit := brk_limit s;
     sbrk_log := (increment, brk s) :: sbrk_log s |}.

(** ** The effect of the straight-line parts of [my_malloc] *)

(** The body of the branch [free_list == NULL] (lines 37-68), which always
    returns: either [NULL] after a refused request, or the payload of a block
    laid out at the start of the region just obtained. *)
Definition first_block (size : Z) (s : state) : Z * state :=
  let '(newblock, s1) :=
    request_memory (size_t_add (to_size_t size) sizeof_Block) s in
  if newblock =? NULL then (NULL, s1)
  else
    (newblock + sizeof_Block,
     set_free_list NULL
       (store_block newblock
          {| Block.size := to_size_t size; Block.next := NULL;
             Block.is_free := 0 |} s1)).

(** Lines 80-103 in one step: the header of [current] is rewritten, and in
    the case of a split a header is written at [current + sizeof(Block) +
    size]. *)
Definition taken_heap (size current : Z) (b : Block.t)
    (h : gmap Z Block.t) : gmap Z Block.t :=
  if too_big size b then
    <[current :=
        {| Block.size := to_size_t size;
           Block.next := current + sizeof_Block + size;
           Block.is_free := 0 |}]>
      (<[current + sizeof_Block + size :=
           {| Block.size :=
                size_t_sub (size_t_sub (Block.size b) sizeof_Block)
                           (to_size_t size);
              Block.next := Block.next b;
              Block.is_free := 1 |}]> h)
  else <[current := Block.set_is_free 0 b]> h.

(** ** Catalogs, well-formed states, reachable states *)

(** [catalog h p l]: following the [next] links from [p] in [h] visits the
    headers at the addresses [l], in this order, and then reaches [NULL]. *)
Fixpoint catalog (h : gmap Z Block.t) (p : Z) (l : list Z) : bool :=
  match l with
  | [] => p =? NULL
  | a :: l' =>
      (p =? a) && negb (a =? NULL) &&
      match h !! a with
      | Some b => catalog h (Block.next b) l'
      | None => false
      end
  end.

(** The header at [a], if any, passes the test of line 78. *)
Definition fits (size : Z) (h : gmap Z Block.t) (a : Z) : bool :=
  match h !! a with
  | Some b => qualifies size b
  | None => false
  end.

(** No header of [l] passes the test of line 78. *)
Definition no_fit (size : Z) (h : gmap Z Block.t) (l : list Z) : bool :=
  forallb (fun a => negb (fits size h a)) l.

(** The bytes [lo .. hi-1] lie inside one region that a successful call of
    [sbrk] handed out. *)
Definition granted (s : state) (lo hi : Z) : bool :=
  existsb (fun '(increment, base) =>
             negb (base =? SBRK_FAILED) && (base <=? lo)
             && (hi <=? base + increment))
          (sbrk_log s).

(** The header at [a] holds a [size_t] in its [size] field and lies, with
    its payload, in memory obtained from [sbrk]. *)
Definition block_ok (s : state) (a : Z) : bool :=
  match heap s !! a with
  | Some b =>
      (0 <=? Block.size b) && (Block.size b <? SIZE_MODULUS)
      && granted s a (a + sizeof_Block + Block.size b)
  | None => false
  end.

(** Every region handed out by [sbrk] starts above address [0] and ends at
    or below the program break. *)
Definition log_ok (s : state) : bool :=
  forallb (fun '(increment, base) =>
             (base =? SBRK_FAILED)
             || ((0 <? base) && (base + increment <=? brk s)))
          (sbrk_log s).

(** A state whose catalog is the finite chain [l] of blocks carved from
    memory obtained from [sbrk]. *)
Definition wf (s : state) (l : list Z) : bool :=
  catalog (heap s) (free_list s) l
  && (0 <? brk s) && (brk_limit s <? SIZE_MODULUS)
  && forallb (block_ok s) l
  && log_ok s.

(** The states of a run of the program: the state at process start, and any
    state left by a call of [my_malloc] with an argument of type [int]. *)
Inductive reachable : state -> Prop :=
| reachable_initial brk0 limit :
    0 < brk0 -> limit < SIZE_MODULUS ->
    reachable (initial_state brk0 limit)
| reachable_call s fuel size p s' :
    reachable s -> int_range size ->
    my_malloc fuel size s = Some (p, s') ->
    reachable s'.

(** ** Example states *)

(** A catalog of two blocks: a free one of 100 bytes at address [1000],
    followed by one in use of 50 bytes at [2000]. *)
Definition heap_with_free_block : state :=
  {| free_list := 1000;
     heap := <[1000 := Block.mk 100 2000 1]>
               (<[2000 := Block.mk 50 NULL 0]> ∅);
     brk := 4096; brk_limit := 65536; sbrk_log := [(3096, 1000)] |}.

(** The same catalog with both blocks in use. *)
Definition heap_all_in_use : state :=
  {| free_list := 1000;
     heap := <[1000 := Block.mk 100 2000 0]>
               (<[2000 := Block.mk 50 NULL 0]> ∅);
     brk := 4096; brk_limit := 65536; sbrk_log := [(3096, 1000)] |}.

(** Both blocks in use and the program break at its limit. *)
Definition heap_at_limit : state :=
  {| free_list := 1000;
     heap := <[1000 := Block.mk 100 2000 0]>
               (<[2000 := Block.mk 50 NULL 0]> ∅);
     brk := 4096; brk_limit := 4096; sbrk_log := [(3096, 1000)] |}.

(** The state left by [my_malloc(16)] in the initial state with the break
    at [4096]. *)
Definition state_after_one_call : state :=
  {| free_list := NULL;
     heap := <[4096 := Block.mk 16 NULL 0]> ∅;
     brk := 4136; brk_limit := 65536; sbrk_log := [(40, 4096)] |}.

(** The state left by two calls [my_malloc(16)] in the initial state with
    the break at [4096]. *)
Definition state_after_two_calls : state :=
  {| free_list := NULL;
     heap := <[4136 := Block.mk 16 NULL 0]>
               (<[4096 := Block.mk 16 NULL 0]> ∅);
     brk := 4176; brk_limit := 65536;
     sbrk_log := [(40, 4136); (40, 4096)] |}.

(** A catalog that is a cycle: one block in use whose [next] field points
    to the block itself. *)
Definition heap_with_cycle : state :=
  {| free_list := 1000;
     heap := <[1000 := Block.mk 100 1000 0]> ∅;
     brk := 4096; brk_limit := 65536; sbrk_log := [(3096, 1000)] |}.

(** ** Further predicates on states *)

(** The state [s] without its history of [sbrk] calls. *)
Definition erase_log (s : state) : state :=
  {| free_list := free_list s; heap := heap s; brk := brk s;
     brk_limit := brk_limit s; sbrk_log := [] |}.

(** The result of a call, the history of [sbrk] calls left out. *)
Definition erase_result (r : option (Z * state)) : option (Z * state) :=
  match r with
  | Some (p, s') => Some (p, erase_log s')
  | None => None
  end.

(** The address after the last payload byte of the block at [a]. *)
Definition block_end (h : gmap Z Block.t) (a : Z) : Z :=
  match h !! a with
  | Some b => a + sizeof_Block + Block.size b
  | None => a
  end.

(** The blocks at [a] and [a'] are the same block or do not overlap. *)
Definition apart (h : gmap Z Block.t) (a a' : Z) : bool :=
  (a =? a') || (block_end h a <=? a') || (block_end h a' <=? a).

(** No two blocks of [l] overlap. *)
Definition no_overlap (h : gmap Z Block.t) (l : list Z) : bool :=
  forallb (fun a => forallb (apart h a) l) l.

(** A well-formed state whose catalog is made of blocks that do not
    overlap. *)
Definition consistent (s : state) (l : list Z) : bool :=
  wf s l && no_overlap (heap s) l.

(** [continues s s2]: the program, in state [s], can get to state [s2] by
    further calls of [my_malloc] with arguments of type [int]. *)
Inductive continues : state -> state -> Prop :=
| continues_here s : continues s s
| continues_call s s1 fuel size p s2 :
    continues s s1 -> int_range size ->
    my_malloc fuel size s1 = Some (p, s2) ->
    continues s s2.

(** The initial state with room for 34 bytes above the break. *)
Definition small_heap : state := initial_state 4096 4130.

(** The largest value of type [intptr_t], the type of the argument of
    [sbrk]: up to it the conversion from [size_t] changes nothing. *)
Definition INTPTR_MAX : Z := 2 ^ 63 - 1.

(** The addresses of all the block headers in memory. *)
Definition headers (h : gmap Z Block.t) : list Z := map fst (map_to_list h).

(** The blocks in memory lie side by side: every header is at an address
    above [0] and records a size that is not negative, every block ends
    inside the address space, and no two blocks (header and payload) share
    a byte.  Then a store to a field of one header changes no other
    header. *)
Definition separate (h : gmap Z Block.t) : bool :=
  forallb (fun a => (0 <? a) && (a + sizeof_Block <=? block_end h a)
                    && (block_end h a <=? SIZE_MODULUS))
          (headers h)
  && no_overlap h (headers h).

(** Every block in memory ends at or below the program break. *)
Definition below_break (s : state) : bool :=
  forallb (fun a => block_end (heap s) a <=? brk s) (headers (heap s)).

(** ** Arithmetic of the C types *)

(** Linear arithmetic once the constants of the data model are numbers. *)
Ltac c_arith :=
  unfold int_range, SBRK_FAILED, INT_MIN, INT_MAX, SIZE_MODULUS,
    sizeof_Block, NULL in *;
  lia.

Lemma to_size_t_nonneg size :
  0 <= size <= INT_MAX -> to_size_t size = size.
Proof.
  intros H. unfold to_size_t, SIZE_MODULUS, INT_MAX in *.
  apply Z.mod_small. lia.
Qed.

Lemma total_size_nonneg size :
  0 <= size <= INT_MAX ->
  size_t_add (to_size_t size) sizeof_Block = size + sizeof_Block.
Proof.
  intros H. rewrite to_size_t_nonneg by assumption.
  unfold size_t_add, SIZE_MODULUS, sizeof_Block, INT_MAX in *.
  apply Z.mod_small. lia.
Qed.

Lemma threshold_nonneg size :
  0 <= size <= INT_MAX ->
  size_t_add (size_t_add (to_size_t size) sizeof_Block) 1
  = size + sizeof_Block + 1.
Proof.
  intros H. rewrite total_size_nonneg by assumption.
  unfold size_t_add, SIZE_MODULUS, sizeof_Block, INT_MAX in *.
  apply Z.mod_small. lia.
Qed.

Lemma qualifies_spec size b :
  0 <= size <= INT_MAX ->
  qualifies size b = true <-> Block.is_free b = 1 /\ size < Block.size b.
Proof.
  intros H. unfold qualifies. rewrite to_size_t_nonneg by assumption.
  rewrite andb_true_iff, Z.eqb_eq, Z.ltb_lt. tauto.
Qed.

Lemma too_big_spec size b :
  0 <= size <= INT_MAX ->
  too_big size b = true <-> size + sizeof_Block + 1 < Block.size b.
Proof.
  intros H. unfold too_big. rewrite threshold_nonneg by assumption.
  apply Z.ltb_lt.
Qed.

(** ** The operating system and [request_memory] *)

(** The two outcomes of [request_memory]. *)
Lemma request_memory_eq size s :
  request_memory size s =
  if brk s + size <=? brk_limit s then
    (if brk s =? SBRK_FAILED then NULL else brk s, sbrk_granted size s)
  else (NULL, sbrk_refused size s).
Proof.
  unfold request_memory, sbrk.
  destruct (brk s + size <=? brk_limit s).
  - destruct (brk s =? SBRK_FAILED); reflexivity.
  - rewrite Z.eqb_refl. reflexivity.
Qed.

(** ** What each part of [my_malloc] leaves alone *)

Lemma update_block_inv p f s s' :
  update_block p f s = Some s' ->
  exists b, heap s !! p = Some b /\ s' = set_heap (<[p := f b]> (heap s)) s.
Proof.
  unfold update_block. destruct (heap s !! p) as [b|]; [|discriminate].
  intros [= <-]. eauto.
Qed.

Lemma take_block_frame size current s p s' :
  take_block size current s = Some (p, s') ->
  p = current + sizeof_Block /\ free_list s' = free_list s
  /\ brk s' = brk s /\ brk_limit s' = brk_limit s
  /\ sbrk_log s' = sbrk_log s.
Proof.
  unfold take_block. intros H.
  destruct (update_block current (Block.set_is_free 0) s) as [s1|] eqn:E1;
    [|discriminate].
  apply update_block_inv in E1 as (b0 & _ & ->). cbn in H.
  destruct (_ !! current) as [b|]; [|discriminate]. cbn in H.
  destruct (too_big size b).
  - destruct (update_block current _ _) as [s3|] eqn:E3; [|discriminate].
    apply update_block_inv in E3 as (b3 & _ & ->). cbn in H.
    destruct (update_block current _ _) as [s4|] eqn:E4; [|discriminate].
    apply update_block_inv in E4 as (b4 & _ & ->). cbn in H.
    injection H as <- <-. cbn. tauto.
  - injection H as <- <-. cbn. tauto.
Qed.

Lemma extend_heap_frame size total_size previous s p s' :
  extend_heap size total_size previous s = Some (p, s') ->
  free_list s' = free_list s /\ brk_limit s' = brk_limit s
  /\ exists r, sbrk_log s' = (total_size, r) :: sbrk_log s.
Proof.
  unfold extend_heap. rewrite request_memory_eq.
  destruct (brk s + total_size <=? brk_limit s).
  - destruct (_ =? NULL).
    + intros [= <- <-]. cbn. eauto.
    + destruct (negb _).
      * destruct (update_block previous _ _) as [s3|] eqn:E3; [|discriminate].
        apply update_block_inv in E3 as (b3 & _ & ->).
        intros [= <- <-]. cbn. eauto.
      * intros [= <- <-]. cbn. eauto.
  - cbn. intros [= <- <-]. cbn. eauto.
Qed.

Lemma search_and_allocate_free_list fuel size total_size s p s' :
  search_and_allocate fuel size total_size s = Some (p, s') ->
  free_list s' = free_list s.
Proof.
  unfold search_and_allocate.
  destruct (search _ _ _ _ _) as [[current previous]|]; [|discriminate].
  cbn. destruct (negb _).
  - intros H. apply take_block_frame in H. tauto.
  - intros H. apply extend_heap_frame in H. tauto.
Qed.

Lemma my_malloc_empty_catalog fuel size s :
  0 <= size -> free_list s = NULL ->
  my_malloc fuel size s = Some (first_block size s).
Proof.
  intros Hsz Hfl. unfold my_malloc, first_block.
  destruct (Z.ltb_spec size 0); [lia|].
  rewrite Hfl, Z.eqb_refl.
  destruct (request_memory _ s) as [newblock s1].
  destruct (newblock =? NULL); reflexivity.
Qed.

Lemma first_block_free_list size s :
  free_list s = NULL -> free_list (snd (first_block size s)) = NULL.
Proof.
  intros Hfl. unfold first_block. rewrite request_memory_eq.
  destruct (_ <=? _); [destruct (_ =? NULL)|]; cbn; auto.
Qed.

(** No assignment in [my_malloc] gives the catalog head a value other than
    [NULL]: after a call it is unchanged or [NULL]. *)
Lemma my_malloc_free_list fuel size s p s' :
  my_malloc fuel size s = Some (p, s') ->
  free_list s' = free_list s \/ free_list s' = NULL.
Proof.
  destruct (Z.ltb_spec size 0) as [Hneg|Hpos].
  - unfold my_malloc. apply Z.ltb_lt in Hneg. rewrite Hneg.
    intros [= <- <-]. now left.
  - destruct (Z.eqb_spec (free_list s) NULL) as [Hfl|Hfl].
    + rewrite my_malloc_empty_catalog by assumption.
      intros [= H]. right.
      replace s' with (snd (first_block size s)) by (rewrite H; reflexivity).
      now apply first_block_free_list.
    + unfold my_malloc. apply Z.ltb_ge in Hpos. rewrite Hpos.
      apply Z.eqb_neq in Hfl. rewrite Hfl.
      intros H. left. eapply search_and_allocate_free_list; eassumption.
Qed.

Lemma reachable_free_list s : reachable s -> free_list s = NULL.
Proof.
  induction 1 as [|s fuel size p s' _ IH _ Hcall]; [reflexivity|].
  apply my_malloc_free_list in Hcall as [H|H]; congruence.
Qed.

(** ** Lists and chains of headers *)

Lemma last_cons_default (a d : Z) l : List.last (a :: l) d = List.last l a.
Proof.
  revert a d. induction l as [|x l IH]; intros a d; [reflexivity|].
  change (List.last (a :: x :: l) d) with (List.last (x :: l) d).
  now rewrite !IH.
Qed.

Lemma last_in (l : list Z) d : l <> [] -> In (List.last l d) l.
Proof.
  induction l as [|x l IH]; [congruence|]. intros _.
  destruct l as [|y l]; [now left|].
  right. apply IH. congruence.
Qed.

Section Catalog.

Variable h : gmap Z Block.t.

Lemma catalog_cons p a l :
  catalog h p (a :: l) = true ->
  p = a /\ a <> NULL
  /\ exists b, h !! a = Some b /\ catalog h (Block.next b) l = true.
Proof.
  cbn. rewrite !andb_true_iff, negb_true_iff, Z.eqb_eq, Z.eqb_neq.
  intros [[-> Hnn] H]. destruct (h !! a) as [b|]; [|discriminate]. eauto.
Qed.

Lemma catalog_nil_head l : catalog h NULL l = true -> l = [].
Proof.
  destruct l as [|a l]; [reflexivity|].
  intros H. apply catalog_cons in H as (<- & Hnn & _). congruence.
Qed.

Lemma catalog_suffix l1 a l2 : forall p,
  catalog h p (l1 ++ a :: l2) = true -> catalog h a (a :: l2) = true.
Proof.
  induction l1 as [|x l1 IH]; intros p Hc.
  - pose proof Hc as Hc'. apply catalog_cons in Hc' as (-> & _). exact Hc.
  - change ((x :: l1) ++ a :: l2) with (x :: (l1 ++ a :: l2)) in Hc.
    apply catalog_cons in Hc as (_ & _ & b & _ & Hc). eapply IH, Hc.
Qed.

Lemma catalog_agree h' l : forall p,
  (forall a, In a l -> Block.next <$> h !! a = Block.next <$> h' !! a) ->
  catalog h p l = catalog h' p l.
Proof.
  induction l as [|a l IH]; intros p Hag; [reflexivity|].
  cbn. f_equal. pose proof (Hag a (or_introl eq_refl)) as Ha.
  destruct (h !! a) as [b|], (h' !! a) as [b'|]; cbn in Ha;
    try discriminate; [|reflexivity].
  injection Ha as ->. apply IH. intros x Hx. apply Hag. now right.
Qed.

Lemma catalog_functional l : forall p l',
  catalog h p l = true -> catalog h p l' = true -> l = l'.
Proof.
  induction l as [|a l IH]; intros p l' H1 H2.
  - cbn in H1. apply Z.eqb_eq in H1 as ->. symmetry.
    now apply catalog_nil_head.
  - apply catalog_cons in H1 as (-> & Hnn & b & Hb & H1).
    destruct l' as [|a' l'].
    + cbn in H2. apply Z.eqb_eq in H2. contradiction.
    + apply catalog_cons in H2 as (<- & _ & b' & Hb' & H2).
      rewrite Hb in Hb'. injection Hb' as <-.
      f_equal. eapply IH; eassumption.
Qed.

Lemma catalog_NoDup l : forall p, catalog h p l = true -> List.NoDup l.
Proof.
  induction l as [|a l IH]; intros p Hc; [constructor|].
  pose proof Hc as Hc'.
  apply catalog_cons in Hc' as (-> & Hnn & b & Hb & Hl).
  constructor; [|eapply IH, Hl].
  intros Hin. apply in_split in Hin as (l1 & l2 & ->).
  change (a :: l1 ++ a :: l2) with ((a :: l1) ++ a :: l2) in Hc.
  pose proof (catalog_suffix _ _ _ _ Hc) as Hs.
  pose proof (catalog_functional _ _ _ Hc Hs) as He.
  apply (f_equal (@length Z)) in He.
  cbn in He. rewrite length_app in He. cbn in He. lia.
Qed.

Lemma catalog_lookup l : forall p a,
  catalog h p l = true -> In a l ->
  a <> NULL /\ exists b, h !! a = Some b.
Proof.
  induction l as [|x l IH]; intros p a Hc Hin; [destruct Hin|].
  apply catalog_cons in Hc as (-> & Hnn & b & Hb & Hc).
  destruct Hin as [<-|Hin]; [eauto|]. eapply IH; eassumption.
Qed.

(** Splicing a header in after [c]. *)
Lemma catalog_splice c b nb v vc l2 : forall l1 p,
  catalog h p (l1 ++ c :: l2) = true ->
  h !! c = Some b -> nb <> NULL -> ~ In nb (l1 ++ c :: l2) ->
  Block.next v = Block.next b -> Block.next vc = nb ->
  catalog (<[c := vc]> (<[nb := v]> h)) p (l1 ++ c :: nb :: l2) = true.
Proof.
  intros l1 p Hc Hb Hnn Hfresh Hv Hvc.
  pose proof (catalog_NoDup _ _ Hc) as Hnd.
  apply List.NoDup_remove_2 in Hnd.
  assert (Hcnb : c <> nb).
  { intros ->. apply Hfresh. apply in_or_app. right. now left. }
  revert p Hc Hnd Hfresh. induction l1 as [|x l1 IH]; intros p Hc Hnd Hfresh.
  - cbn [app] in *. apply catalog_cons in Hc as (-> & Hcn & b0 & Hb0 & Hc).
    rewrite Hb in Hb0. injection Hb0 as <-.
    cbn. rewrite Z.eqb_refl. apply Z.eqb_neq in Hcn. rewrite Hcn. cbn.
    rewrite lookup_insert_eq, Hvc, Z.eqb_refl.
    apply Z.eqb_neq in Hnn. rewrite Hnn. cbn.
    rewrite lookup_insert_ne, lookup_insert_eq, Hv by congruence.
    rewrite <- Hc. symmetry. apply catalog_agree. intros a Ha.
    rewrite !lookup_insert_ne; [reflexivity|..].
    + intros <-. apply Hfresh. now right.
    + intros <-. apply Hnd. exact Ha.
  - cbn [app] in *. apply catalog_cons in Hc as (-> & Hxn & bx & Hbx & Hc).
    cbn. rewrite Z.eqb_refl. apply Z.eqb_neq in Hxn. rewrite Hxn. cbn.
    rewrite !lookup_insert_ne, Hbx.
    + apply IH; [assumption| |].
      * intros Hin. apply Hnd. now right.
      * intros Hin. apply Hfresh. now right.
    + intros <-. apply Hfresh. now left.
    + intros <-. apply Hnd. now left.
Qed.

(** Appending a header after the last one. *)
Lemma catalog_append nb v : forall l p bl,
  catalog h p l = true -> l <> [] ->
  h !! List.last l NULL = Some bl ->
  nb <> NULL -> ~ In nb l -> Block.next v = NULL ->
  catalog (<[List.last l NULL := Block.set_next nb bl]> (<[nb := v]> h))
          p (l ++ [nb]) = true.
Proof.
  induction l as [|a l IH]; intros p bl Hc Hne Hbl Hnn Hfresh Hv;
    [congruence|].
  pose proof (catalog_NoDup _ _ Hc) as Hnd.
  apply catalog_cons in Hc as (-> & Han & b & Hb & Hc).
  assert (Hanb : a <> nb) by (intros ->; apply Hfresh; now left).
  destruct l as [|x l].
  - cbn in Hbl |- *. rewrite Z.eqb_refl.
    apply Z.eqb_neq in Han. rewrite Han. cbn.
    rewrite lookup_insert_eq. cbn. rewrite Z.eqb_refl.
    apply Z.eqb_neq in Hnn. rewrite Hnn. cbn.
    rewrite lookup_insert_ne, lookup_insert_eq, Hv by congruence.
    reflexivity.
  - rewrite last_cons_default, (last_cons_default x a),
      <- (last_cons_default x NULL) in Hbl |- *.
    assert (Hal : a <> List.last (x :: l) NULL).
    { intros Heq. inversion Hnd as [|? ? Hnin _]. apply Hnin.
      rewrite Heq. apply last_in. congruence. }
    change ((a :: x :: l) ++ [nb]) with (a :: ((x :: l) ++ [nb])).
    cbn [catalog]. rewrite Z.eqb_refl.
    apply Z.eqb_neq in Han. rewrite Han. cbn [negb andb].
    rewrite !lookup_insert_ne, Hb by congruence.
    apply IH; try assumption; [congruence|].
    intros Hin. apply Hfresh. now right.
Qed.

End Catalog.

(** ** The walk over the catalog *)

Section Walk.

Variable size : Z.
Variable h : gmap Z Block.t.

Lemma search_unfold fuel current previous :
  current <> NULL ->
  search (S fuel) size h current previous =
  match h !! current with
  | None => None
  | Some b =>
      if qualifies size b then Some (current, previous)
      else search fuel size h (Block.next b) current
  end.
Proof. intros H. apply Z.eqb_neq in H. cbn. now rewrite H. Qed.

Lemma search_null fuel previous :
  search fuel size h NULL previous = Some (NULL, previous).
Proof. destruct fuel; reflexivity. Qed.

(** The walk over a catalog none of whose blocks passes the test ends with
    [current = NULL] and [previous] at the last block. *)
Lemma search_miss l : forall p previous fuel,
  catalog h p l = true -> no_fit size h l = true ->
  (length l <= fuel)%nat ->
  search fuel size h p previous = Some (NULL, List.last l previous).
Proof.
  induction l as [|a l IH]; intros p previous fuel Hc Hn Hf.
  - cbn in Hc. apply Z.eqb_eq in Hc as ->. apply search_null.
  - apply catalog_cons in Hc as (-> & Hnn & b & Hb & Hc).
    cbn in Hn. apply andb_true_iff in Hn as [Ha Hn].
    unfold fits in Ha. rewrite Hb in Ha. apply negb_true_iff in Ha.
    destruct fuel as [|fuel]; [cbn in Hf; lia|].
    rewrite search_unfold, Hb, Ha by assumption.
    rewrite last_cons_default. apply IH; [assumption..|cbn in Hf; lia].
Qed.

(** The walk stops at the first block that passes the test. *)
Lemma search_hit l1 a l2 : forall p previous fuel,
  catalog h p (l1 ++ a :: l2) = true -> no_fit size h l1 = true ->
  fits size h a = true -> (length l1 < fuel)%nat ->
  search fuel size h p previous = Some (a, List.last l1 previous).
Proof.
  induction l1 as [|x l1 IH]; intros p previous fuel Hc Hn Ha Hf.
  - apply catalog_cons in Hc as (-> & Hnn & b & Hb & Hc).
    destruct fuel as [|fuel]; [cbn in Hf; lia|].
    unfold fits in Ha. rewrite Hb in Ha.
    now rewrite search_unfold, Hb, Ha by assumption.
  - change ((x :: l1) ++ a :: l2) with (x :: (l1 ++ a :: l2)) in Hc.
    apply catalog_cons in Hc as (-> & Hnn & b & Hb & Hc).
    cbn in Hn. apply andb_true_iff in Hn as [Hx Hn].
    unfold fits in Hx. rewrite Hb in Hx. apply negb_true_iff in Hx.
    destruct fuel as [|fuel]; [cbn in Hf; lia|].
    rewrite search_unfold, Hb, Hx by assumption.
    rewrite last_cons_default. apply IH; [assumption..|cbn in Hf; lia].
Qed.

(** A list of addresses either holds no fitting block or splits at its
    first fitting block. *)
Lemma first_fit_split l :
  no_fit size h l = true
  \/ exists l1 a l2,
       l = l1 ++ a :: l2 /\ no_fit size h l1 = true /\ fits size h a = true.
Proof.
  induction l as [|x l IH]; [now left|].
  destruct (fits size h x) eqn:Hx.
  - right. exists [], x, l. auto.
  - destruct IH as [IH|(l1 & a & l2 & -> & Hn & Ha)].
    + left. cbn. now rewrite Hx.
    + right. exists (x :: l1), a, l2. cbn. rewrite Hx. auto.
Qed.

Lemma no_fit_spec l :
  0 <= size <= INT_MAX -> no_fit size h l = true ->
  forall a b, In a l -> h !! a = Some b ->
    ~ (Block.is_free b = 1 /\ size < Block.size b).
Proof.
  intros Hsz Hn a b Hin Hb Hq. unfold no_fit in Hn.
  rewrite forallb_forall in Hn. specialize (Hn a Hin).
  unfold fits in Hn. rewrite Hb in Hn.
  apply (qualifies_spec size b Hsz) in Hq. rewrite Hq in Hn. discriminate.
Qed.

Lemma fits_spec a :
  0 <= size <= INT_MAX -> fits size h a = true ->
  exists b, h !! a = Some b /\ Block.is_free b = 1 /\ size < Block.size b.
Proof.
  intros Hsz. unfold fits. destruct (h !! a) as [b|]; [|discriminate].
  intros Hq. apply (qualifies_spec size b Hsz) in Hq. eauto.
Qed.

End Walk.

(** ** Taking a block *)

Lemma take_block_eq size current s b :
  0 <= size -> heap s !! current = Some b ->
  take_block size current s
  = Some (current + sizeof_Block,
          set_heap (taken_heap size current b (heap s)) s).
Proof.
  intros Hsz Hb. unfold take_block, update_block, taken_heap. rewrite Hb. cbn.
  rewrite lookup_insert_eq. cbn.
  change (too_big size (Block.set_is_free 0 b)) with (too_big size b).
  destruct (too_big size b); [|reflexivity].
  assert (Hne : current + sizeof_Block + size <> current)
    by c_arith.
  rewrite lookup_insert_ne, lookup_insert_eq by assumption. cbn.
  rewrite lookup_insert_eq. cbn.
  f_equal. f_equal. unfold set_heap; cbn. f_equal.
  rewrite !insert_insert_eq.
  rewrite (insert_insert_ne _ (current + sizeof_Block + size) current)
    by assumption.
  now rewrite insert_insert_eq.
Qed.

Lemma catalog_head_not_null h p l1 a l2 :
  catalog h p (l1 ++ a :: l2) = true -> p <> NULL.
Proof.
  destruct l1 as [|x l1]; cbn [app]; intros H;
    apply catalog_cons in H as (-> & Hnn & _); exact Hnn.
Qed.

(** The call that finds a fitting block. *)
Lemma my_malloc_hit s l1 a l2 fuel size b :
  0 <= size ->
  catalog (heap s) (free_list s) (l1 ++ a :: l2) = true ->
  no_fit size (heap s) l1 = true -> fits size (heap s) a = true ->
  (length l1 < fuel)%nat -> heap s !! a = Some b ->
  my_malloc fuel size s
  = Some (a + sizeof_Block, set_heap (taken_heap size a b (heap s)) s).
Proof.
  intros Hsz Hc Hn Ha Hlen Hb. unfold my_malloc.
  assert (Hs : (size <? 0) = false) by (apply Z.ltb_ge; lia).
  pose proof (catalog_head_not_null _ _ _ _ _ Hc) as Hnn.
  apply Z.eqb_neq in Hnn. rewrite Hs, Hnn.
  unfold search_and_allocate.
  rewrite (search_hit size (heap s) l1 a l2) by assumption.
  assert (Han : (a =? NULL) = false).
  { apply Z.eqb_neq. apply catalog_suffix in Hc.
    now apply catalog_cons in Hc. }
  cbn. rewrite Han. cbn. now apply take_block_eq.
Qed.

(** The call that finds no fitting block in a catalog that is not empty. *)
Lemma my_malloc_miss s l fuel size :
  0 <= size ->
  catalog (heap s) (free_list s) l = true -> l <> [] ->
  no_fit size (heap s) l = true -> (length l <= fuel)%nat ->
  my_malloc fuel size s
  = extend_heap size (size_t_add (to_size_t size) sizeof_Block)
                (List.last l NULL) s.
Proof.
  intros Hsz Hc Hne Hn Hlen. unfold my_malloc.
  assert (Hs : (size <? 0) = false) by (apply Z.ltb_ge; lia).
  assert (Hnn : (free_list s =? NULL) = false).
  { apply Z.eqb_neq. destruct l as [|x l]; [congruence|].
    now apply (catalog_head_not_null (heap s) _ [] x l). }
  rewrite Hs, Hnn. unfold search_and_allocate.
  rewrite (search_miss size (heap s) l) by assumption.
  reflexivity.
Qed.

(** ** The branch of the empty catalog *)

Lemma first_block_granted size s :
  0 <= size <= INT_MAX ->
  0 < brk s -> brk_limit s < SIZE_MODULUS ->
  brk s + (size + sizeof_Block) <= brk_limit s ->
  first_block size s
  = (brk s + sizeof_Block,
     set_free_list NULL
       (store_block (brk s)
          {| Block.size := size; Block.next := NULL; Block.is_free := 0 |}
          (sbrk_granted (size + sizeof_Block) s))).
Proof.
  intros Hsz Hb Hl Hok. unfold first_block.
  rewrite total_size_nonneg, to_size_t_nonneg, request_memory_eq
    by assumption.
  assert (Hf : (brk s =? SBRK_FAILED) = false).
  { apply Z.eqb_neq. c_arith. }
  assert (Hn : (brk s =? NULL) = false)
    by (apply Z.eqb_neq; c_arith).
  apply Z.leb_le in Hok. now rewrite Hok, Hf, Hn.
Qed.

Lemma first_block_refused size s :
  0 <= size <= INT_MAX ->
  brk_limit s < brk s + (size + sizeof_Block) ->
  first_block size s = (NULL, sbrk_refused (size + sizeof_Block) s).
Proof.
  intros Hsz Hno. unfold first_block.
  rewrite total_size_nonneg, request_memory_eq by assumption.
  apply Z.leb_gt in Hno. now rewrite Hno.
Qed.

Lemma first_block_log size s :
  0 <= size <= INT_MAX ->
  exists r,
    sbrk_log (snd (first_block size s))
    = (size + sizeof_Block, r) :: sbrk_log s.
Proof.
  intros Hsz. unfold first_block.
  rewrite total_size_nonneg, request_memory_eq by assumption.
  destruct (_ <=? _); [destruct (_ =? NULL)|]; cbn; eauto.
Qed.

(** ** Rejected arguments *)

(** C8: for every requested size below zero, in particular for [-1],
    [my_malloc] fails: it returns the failure value [NULL]. *)
Theorem my_malloc_negative_size_fails fuel size s :
  size < 0 -> fst <$> my_malloc fuel size s = Some NULL.
Proof.
  intros Hneg. unfold my_malloc.
  apply Z.ltb_lt in Hneg. now rewrite Hneg.
Qed.

Lemma my_malloc_minus_one_fails :
  -1 < 0 /\ fst <$> my_malloc 0 (-1) (initial_state 4096 65536) = Some NULL.
Proof.
  split; [lia|].
  apply (my_malloc_negative_size_fails 0%nat (-1) (initial_state 4096 65536)).
  lia.
Defined.

(** C10: a call with a requested size below zero leaves the whole state as
    it was: no call of [sbrk] is logged, the program break, the catalog head
    and all block headers are unchanged. *)
Theorem my_malloc_negative_size_no_effect fuel size s :
  size < 0 ->
  exists p s',
    my_malloc fuel size s = Some (p, s')
    /\ p = NULL /\ s' = s
    /\ sbrk_log s' = sbrk_log s /\ brk s' = brk s
    /\ free_list s' = free_list s /\ heap s' = heap s.
Proof.
  intros Hneg. exists NULL, s. unfold my_malloc.
  apply Z.ltb_lt in Hneg. rewrite Hneg. tauto.
Qed.

(** ** The catalog head *)

(** C4: in every state the program can reach the catalog head is [NULL], and
    it is still [NULL] after one more call; a call needs no iteration of the
    search loop (fuel [0] is enough) and does what the argument check and the
    branch of the empty catalog do; when the argument is not negative this
    branch asks [sbrk] for [size + sizeof(Block)] bytes.  In any state
    whatever, a call leaves the catalog head as it was or sets it to
    [NULL]. *)
Theorem catalog_head_stays_empty s :
  reachable s ->
  free_list s = NULL
  /\ (forall fuel size p s',
        my_malloc fuel size s = Some (p, s') -> free_list s' = NULL)
  /\ (forall fuel size,
        my_malloc fuel size s =
        Some (if size <? 0 then (NULL, s) else first_block size s))
  /\ (forall size, 0 <= size <= INT_MAX ->
        exists p s' r,
          my_malloc 0 size s = Some (p, s')
          /\ sbrk_log s' = (size + sizeof_Block, r) :: sbrk_log s)
  /\ (forall fuel size s0 p s',
        my_malloc fuel size s0 = Some (p, s') ->
        free_list s' = free_list s0 \/ free_list s' = NULL).
Proof.
  intros Hr. pose proof (reachable_free_list s Hr) as Hfl.
  split; [assumption|]. split; [|split; [|split]].
  - intros fuel size p s' Hcall.
    apply my_malloc_free_list in Hcall as [H|H]; congruence.
  - intros fuel size. destruct (Z.ltb_spec size 0) as [Hneg|Hpos].
    + unfold my_malloc. apply Z.ltb_lt in Hneg. now rewrite Hneg.
    + now apply my_malloc_empty_catalog.
  - intros size Hsz. rewrite my_malloc_empty_catalog by (assumption || lia).
    destruct (first_block_log size s Hsz) as [r Hlog].
    destruct (first_block size s) as [p s'] eqn:E. cbn in Hlog. eauto.
  - intros fuel size s0 p s'. apply my_malloc_free_list.
Qed.

(** ** Two allocations in a row *)

(** C5 (as the program behaves): from the initial state, with room for two
    requests above the break, two calls [my_malloc(16)] return distinct
    pointers to payloads that do not overlap; each block lies in a region of
    its own obtained from [sbrk], the second header is written where the
    first call left no header, and the first header is as the first call
    wrote it; the catalog head is [NULL] afterwards. *)
Theorem two_allocations brk0 limit fuel1 fuel2 :
  0 < brk0 -> limit < SIZE_MODULUS ->
  brk0 + 2 * (16 + sizeof_Block) <= limit ->
  exists p1 s1 p2 s2,
    my_malloc fuel1 16 (initial_state brk0 limit) = Some (p1, s1)
    /\ my_malloc fuel2 16 s1 = Some (p2, s2)
    /\ p1 = brk0 + sizeof_Block
    /\ p2 = brk0 + (16 + sizeof_Block) + sizeof_Block
    /\ p1 <> NULL /\ p2 <> NULL /\ p1 <> p2
    /\ p1 + 16 <= p2 - sizeof_Block
    /\ sbrk_log s2 = [(16 + sizeof_Block, brk0 + (16 + sizeof_Block));
                      (16 + sizeof_Block, brk0)]
    /\ heap s1 !! (p2 - sizeof_Block) = None
    /\ heap s2 !! (p2 - sizeof_Block) = Some (Block.mk 16 NULL 0)
    /\ heap s2 !! (p1 - sizeof_Block) = Some (Block.mk 16 NULL 0)
    /\ free_list s2 = NULL.
Proof.
  intros Hb Hl Hroom.
  assert (Hsz : 0 <= 16 <= INT_MAX) by c_arith.
  rewrite my_malloc_empty_catalog by (reflexivity || lia).
  rewrite first_block_granted
    by (cbn; unfold sizeof_Block in *; (assumption || lia)).
  cbn [brk initial_state].
  eexists _, _, _, _. split; [reflexivity|].
  rewrite my_malloc_empty_catalog by (reflexivity || lia).
  rewrite first_block_granted
    by (cbn; unfold sizeof_Block in *; (assumption || lia)).
  split; [reflexivity|].
  cbn. unfold NULL, sizeof_Block in *.
  repeat split; try lia.
  - rewrite lookup_insert_ne by lia. apply lookup_empty.
  - replace (brk0 + (16 + 24) + 24 - 24) with (brk0 + (16 + 24)) by lia.
    apply lookup_insert_eq.
  - replace (brk0 + 24 - 24) with brk0 by lia.
    rewrite lookup_insert_ne by lia. apply lookup_insert_eq.
Qed.

(** ** First fit *)

(** C2: the walk starts at the catalog head and ends either at [NULL], when
    no block of the catalog is free with a payload larger than the request,
    or at the first block that is; the block it selects is free, its payload
    size is larger than, hence different from, the request, and [my_malloc]
    returns the payload of that block. *)
Theorem search_selects_first_fit s l fuel size :
  0 <= size <= INT_MAX ->
  catalog (heap s) (free_list s) l = true ->
  (length l <= fuel)%nat ->
  exists current previous,
    search fuel size (heap s) (free_list s) NULL = Some (current, previous)
    /\ (current = NULL ->
        forall a b, In a l -> heap s !! a = Some b ->
          ~ (Block.is_free b = 1 /\ size < Block.size b))
    /\ (current <> NULL ->
        exists l1 l2 b,
          l = l1 ++ current :: l2
          /\ heap s !! current = Some b
          /\ Block.is_free b = 1 /\ size < Block.size b
          /\ Block.is_free b <> 0 /\ Block.size b <> size
          /\ (forall a b', In a l1 -> heap s !! a = Some b' ->
                ~ (Block.is_free b' = 1 /\ size < Block.size b'))
          /\ exists s',
               my_malloc fuel size s = Some (current + sizeof_Block, s')).
Proof.
  intros Hsz Hc Hf.
  destruct (first_fit_split size (heap s) l)
    as [Hn|(l1 & a & l2 & -> & Hn & Ha)].
  - exists NULL, (List.last l NULL).
    split; [now apply search_miss|]. split; [|congruence].
    intros _. now apply no_fit_spec.
  - assert (Hlen : (length l1 < fuel)%nat).
    { rewrite length_app in Hf. cbn in Hf. lia. }
    assert (Han : a <> NULL).
    { apply catalog_suffix in Hc. now apply catalog_cons in Hc. }
    exists a, (List.last l1 NULL).
    split; [now apply search_hit with (l2 := l2)|].
    split; [congruence|]. intros _.
    destruct (fits_spec size (heap s) a Hsz Ha) as (b & Hb & Hfree & Hgt).
    exists l1, l2, b. repeat split; try assumption; try lia.
    + now apply no_fit_spec.
    + rewrite (my_malloc_hit s l1 a l2 fuel size b) by (assumption || lia).
      eauto.
Qed.

(** The call that finds no fitting block and whose request is refused. *)
Lemma my_malloc_refused s l fuel size :
  0 <= size <= INT_MAX ->
  catalog (heap s) (free_list s) l = true ->
  no_fit size (heap s) l = true -> (length l <= fuel)%nat ->
  brk_limit s < brk s + (size + sizeof_Block) ->
  my_malloc fuel size s
  = Some (NULL, sbrk_refused (size + sizeof_Block) s).
Proof.
  intros Hsz Hc Hn Hlen Hno. destruct l as [|x l].
  - cbn in Hc. apply Z.eqb_eq in Hc.
    rewrite my_malloc_empty_catalog by (assumption || lia).
    now rewrite first_block_refused.
  - rewrite (my_malloc_miss s (x :: l) fuel size)
      by (assumption || lia || congruence).
    unfold extend_heap.
    rewrite total_size_nonneg, request_memory_eq by assumption.
    apply Z.leb_gt in Hno. now rewrite Hno.
Qed.

(** The call that finds no fitting block in a catalog that is not empty and
    whose request is granted. *)
Lemma my_malloc_appended s l fuel size b_last :
  0 <= size <= INT_MAX ->
  catalog (heap s) (free_list s) l = true -> l <> [] ->
  no_fit size (heap s) l = true -> (length l <= fuel)%nat ->
  0 < brk s -> brk_limit s < SIZE_MODULUS ->
  brk s + (size + sizeof_Block) <= brk_limit s ->
  brk s <> List.last l NULL ->
  heap s !! List.last l NULL = Some b_last ->
  my_malloc fuel size s
  = Some (brk s + sizeof_Block,
          set_heap
            (<[List.last l NULL := Block.set_next (brk s) b_last]>
               (<[brk s := Block.mk size NULL 0]> (heap s)))
            (sbrk_granted (size + sizeof_Block) s)).
Proof.
  intros Hsz Hc Hne Hn Hlen Hb Hlim Hroom Hd Hbl.
  rewrite (my_malloc_miss s l fuel size) by (assumption || lia).
  unfold extend_heap.
  rewrite total_size_nonneg, to_size_t_nonneg, request_memory_eq
    by assumption.
  pose proof (last_in l NULL Hne) as Hin.
  destruct (catalog_lookup _ _ _ _ Hc Hin) as (Hln & _).
  assert (Hlb : (List.last l NULL =? NULL) = false) by now apply Z.eqb_neq.
  assert (Hf : (brk s =? SBRK_FAILED) = false).
  { apply Z.eqb_neq. c_arith. }
  assert (Hnn : (brk s =? NULL) = false)
    by (apply Z.eqb_neq; c_arith).
  apply Z.leb_le in Hroom. rewrite Hroom, Hf, Hnn, Hlb. cbn [negb].
  unfold update_block, store_block. cbn [heap set_heap sbrk_granted].
  now rewrite lookup_insert_ne, Hbl by assumption.
Qed.

(** ** Blocks side by side *)

Lemma block_end_lookup h a b :
  h !! a = Some b -> block_end h a = a + sizeof_Block + Block.size b.
Proof. unfold block_end. now intros ->. Qed.

Lemma no_overlap_spec h l :
  no_overlap h l = true <->
  forall a a', In a l -> In a' l -> a <> a' ->
    block_end h a <= a' \/ block_end h a' <= a.
Proof.
  unfold no_overlap. rewrite forallb_forall. split.
  - intros H a a' Ha Ha' Hne. specialize (H a Ha).
    rewrite forallb_forall in H. specialize (H a' Ha'). unfold apart in H.
    rewrite !orb_true_iff, Z.eqb_eq, !Z.leb_le in H. tauto.
  - intros H a Ha. rewrite forallb_forall. intros a' Ha'. unfold apart.
    rewrite !orb_true_iff, Z.eqb_eq, !Z.leb_le.
    destruct (Z.eq_dec a a') as [|Hne]; [tauto|].
    specialize (H a a' Ha Ha' Hne). tauto.
Qed.

Lemma in_headers (h : gmap Z Block.t) a :
  In a (headers h) <-> exists b, h !! a = Some b.
Proof.
  unfold headers. rewrite in_map_iff. split.
  - intros ([a0 b] & <- & Hin). exists b.
    now apply list_elem_of_In, elem_of_map_to_list in Hin.
  - intros [b Hb]. exists (a, b). split; [reflexivity|].
    now apply list_elem_of_In, elem_of_map_to_list.
Qed.

Lemma separate_inv h :
  separate h = true ->
  forall a b, h !! a = Some b ->
    0 < a /\ 0 <= Block.size b
    /\ (forall a' b', h !! a' = Some b' -> a <> a' ->
         a + sizeof_Block + Block.size b <= a'
         \/ a' + sizeof_Block + Block.size b' <= a)
    /\ a + sizeof_Block + Block.size b <= SIZE_MODULUS.
Proof.
  unfold separate. rewrite andb_true_iff, forallb_forall, no_overlap_spec.
  intros [Hpos Hno] a b Hab.
  assert (Ha : In a (headers h)) by (apply in_headers; eauto).
  specialize (Hpos a Ha).
  rewrite !andb_true_iff, Z.ltb_lt, !Z.leb_le in Hpos.
  rewrite (block_end_lookup _ _ _ Hab) in Hpos.
  split; [tauto|]. split; [lia|]. split; [|tauto].
  intros a' b' Hab' Hne.
  assert (Ha' : In a' (headers h)) by (apply in_headers; eauto).
  specialize (Hno a a' Ha Ha' Hne).
  now rewrite (block_end_lookup _ _ _ Hab),
    (block_end_lookup _ _ _ Hab') in Hno.
Qed.

Lemma below_break_inv s :
  below_break s = true ->
  forall a b, heap s !! a = Some b ->
    a + sizeof_Block + Block.size b <= brk s.
Proof.
  unfold below_break. rewrite forallb_forall. intros H a b Hab.
  assert (Ha : In a (headers (heap s))) by (apply in_headers; eauto).
  specialize (H a Ha). apply Z.leb_le in H.
  now rewrite (block_end_lookup _ _ _ Hab) in H.
Qed.

(** Among blocks that lie side by side, the address [c + sizeof(Block) +
    size] inside the payload of the block at [c] is the address of no
    header. *)
Lemma inside_payload_no_header h c b size :
  separate h = true -> h !! c = Some b ->
  0 <= size -> size + sizeof_Block + 1 < Block.size b ->
  h !! (c + sizeof_Block + size) = None.
Proof.
  intros Hsep Hc Hsz Hbig.
  destruct (h !! (c + sizeof_Block + size)) as [b'|] eqn:E; [|reflexivity].
  destruct (separate_inv h Hsep c b Hc) as (_ & _ & Hno & _).
  destruct (separate_inv h Hsep _ b' E) as (_ & Hb' & _).
  assert (Hne : c <> c + sizeof_Block + size) by c_arith.
  destruct (Hno _ b' E Hne); c_arith.
Qed.

(** ** Splitting *)

(** C3 (as the program behaves): in a memory whose blocks lie side by
    side, the selected block is split exactly when its payload size exceeds
    [size + sizeof(Block) + 1].  The remainder header is then written
    [sizeof(Block) + size] bytes after the start of the selected header,
    that is [size] bytes after the start of its payload, where no header
    was; it gets the payload size [old - sizeof(Block) - size], is free and
    is linked between the selected block and its former successor, and the
    selected block's payload size becomes [size].  Otherwise only the
    [is_free] flag of the selected header changes: no header appears and the
    catalog is the same chain. *)
Theorem split_policy s l1 current l2 b fuel size :
  0 <= size <= INT_MAX ->
  separate (heap s) = true ->
  catalog (heap s) (free_list s) (l1 ++ current :: l2) = true ->
  no_fit size (heap s) l1 = true -> fits size (heap s) current = true ->
  (length l1 < fuel)%nat ->
  heap s !! current = Some b -> 0 <= Block.size b < SIZE_MODULUS ->
  let new_block := current + sizeof_Block + size in
  exists s',
    my_malloc fuel size s = Some (current + sizeof_Block, s')
    /\ free_list s' = free_list s /\ sbrk_log s' = sbrk_log s
    /\ (size + sizeof_Block + 1 < Block.size b ->
        new_block = (current + sizeof_Block) + size
        /\ heap s !! new_block = None
        /\ heap s' =
           <[current := Block.mk size new_block 0]>
             (<[new_block :=
                  Block.mk (Block.size b - sizeof_Block - size)
                           (Block.next b) 1]> (heap s))
        /\ catalog (heap s') (free_list s')
                   (l1 ++ current :: new_block :: l2) = true)
    /\ (Block.size b <= size + sizeof_Block + 1 ->
        heap s' = <[current := Block.mk (Block.size b) (Block.next b) 0]>
                    (heap s)
        /\ dom (heap s') = dom (heap s)
        /\ catalog (heap s') (free_list s') (l1 ++ current :: l2) = true).
Proof.
  intros Hsz Hsep Hc Hn Hfit Hlen Hb Hbs new_block.
  rewrite (my_malloc_hit s l1 current l2 fuel size b) by (assumption || lia).
  eexists. split; [reflexivity|]. cbn [free_list sbrk_log heap set_heap].
  split; [reflexivity|]. split; [reflexivity|].
  unfold taken_heap. split.
  - intros Hbig. apply (too_big_spec size b Hsz) in Hbig as Hbig'.
    rewrite Hbig', to_size_t_nonneg by assumption.
    assert (Hsub : size_t_sub (size_t_sub (Block.size b) sizeof_Block) size
                   = Block.size b - sizeof_Block - size).
    { unfold size_t_sub, SIZE_MODULUS, sizeof_Block, INT_MAX in *.
      rewrite (Z.mod_small (Block.size b - 24)) by lia.
      apply Z.mod_small. lia. }
    rewrite Hsub. fold new_block.
    assert (Hnone : heap s !! new_block = None).
    { apply (inside_payload_no_header (heap s) current b size);
        (assumption || lia). }
    destruct (separate_inv _ Hsep current b Hb) as (Hpos & _).
    split; [unfold new_block; lia|]. split; [assumption|].
    split; [reflexivity|].
    apply catalog_splice with (b := b); try assumption; try reflexivity.
    + unfold new_block. c_arith.
    + intros Hin.
      destruct (catalog_lookup _ _ _ _ Hc Hin) as (_ & b' & Hb').
      congruence.
  - intros Hsmall.
    assert (Hbig : too_big size b = false).
    { destruct (too_big size b) eqn:E; [|reflexivity].
      apply (too_big_spec size b Hsz) in E. lia. }
    rewrite Hbig. split; [reflexivity|]. split.
    + apply dom_insert_lookup_L. eauto.
    + rewrite <- Hc. symmetry. apply catalog_agree. intros a _.
      destruct (Z.eq_dec current a) as [<-|Hne].
      * now rewrite lookup_insert_eq, Hb.
      * now rewrite lookup_insert_ne.
Qed.

(** ** Extending the heap behind the catalog *)

(** C6: in a memory whose blocks lie side by side below the program
    break, when the walk through a catalog that is not empty finds no
    fitting block, [my_malloc] makes one request to [sbrk], for [size +
    sizeof(Block)] bytes; when the request is granted the new header, at the
    old break, where no header was, holds [size], [NULL] and [is_free = 0],
    the [next] field of the last block of the catalog points to it, the
    catalog becomes the old chain followed by the new block, and the result
    is the new payload. *)
Theorem extend_after_exhausted_walk s l fuel size :
  0 <= size <= INT_MAX ->
  separate (heap s) = true -> below_break s = true ->
  catalog (heap s) (free_list s) l = true -> l <> [] ->
  no_fit size (heap s) l = true -> (length l <= fuel)%nat ->
  (exists p s' r,
     my_malloc fuel size s = Some (p, s')
     /\ sbrk_log s' = (size + sizeof_Block, r) :: sbrk_log s)
  /\ (brk_limit s < SIZE_MODULUS ->
      brk s + (size + sizeof_Block) <= brk_limit s ->
      exists s' b_last,
        my_malloc fuel size s = Some (brk s + sizeof_Block, s')
        /\ heap s !! brk s = None
        /\ heap s !! List.last l NULL = Some b_last
        /\ heap s' =
           <[List.last l NULL := Block.set_next (brk s) b_last]>
             (<[brk s := Block.mk size NULL 0]> (heap s))
        /\ heap s' !! brk s = Some (Block.mk size NULL 0)
        /\ heap s' !! List.last l NULL
           = Some (Block.set_next (brk s) b_last)
        /\ free_list s' = free_list s
        /\ sbrk_log s' = (size + sizeof_Block, brk s) :: sbrk_log s
        /\ catalog (heap s') (free_list s') (l ++ [brk s]) = true).
Proof.
  intros Hsz Hsep Hbelow Hc Hne Hn Hlen.
  pose proof (last_in l NULL Hne) as Hin.
  destruct (catalog_lookup _ _ _ _ Hc Hin) as (Hln & bl & Hbl).
  assert (Hnone : heap s !! brk s = None).
  { destruct (heap s !! brk s) as [b0|] eqn:E; [|reflexivity].
    pose proof (below_break_inv s Hbelow _ _ E) as Hend.
    destruct (separate_inv _ Hsep _ _ E) as (_ & Hs0 & _). c_arith. }
  assert (Hfresh : ~ In (brk s) l).
  { intros Hb. destruct (catalog_lookup _ _ _ _ Hc Hb) as (_ & b0 & Hb0).
    congruence. }
  assert (Hb : 0 < brk s).
  { pose proof (below_break_inv s Hbelow _ _ Hbl) as Hend.
    destruct (separate_inv _ Hsep _ _ Hbl) as (Hpos & Hs0 & _). c_arith. }
  split.
  - rewrite (my_malloc_miss s l fuel size) by (assumption || lia).
    unfold extend_heap.
    rewrite total_size_nonneg, request_memory_eq by assumption.
    destruct (_ <=? _); [|cbn; eauto].
    destruct (brk s =? SBRK_FAILED); [cbn; eauto|].
    destruct (brk s =? NULL); [cbn; eauto|].
    apply Z.eqb_neq in Hln. rewrite Hln. cbn [negb].
    unfold update_block, store_block. cbn [heap set_heap sbrk_granted].
    destruct (Z.eq_dec (brk s) (List.last l NULL)) as [<-|Hd].
    + rewrite lookup_insert_eq. cbn. eauto.
    + rewrite lookup_insert_ne, Hbl by assumption. cbn. eauto.
  - intros Hlim Hroom.
    assert (Hd : brk s <> List.last l NULL) by congruence.
    rewrite (my_malloc_appended s l fuel size bl) by assumption.
    eexists _, bl. split; [reflexivity|]. split; [assumption|].
    split; [assumption|].
    cbn. split; [reflexivity|].
    split; [now rewrite lookup_insert_ne, lookup_insert_eq by congruence|].
    split; [now rewrite lookup_insert_eq|].
    split; [reflexivity|]. split; [reflexivity|].
    apply catalog_append; try assumption; [|reflexivity].
    c_arith.
Qed.

(** ** Refused requests *)

Lemma cons_neq {A} (x : A) (l : list A) : l <> x :: l.
Proof.
  intros H. apply (f_equal (@length A)) in H. cbn in H. lia.
Qed.

Lemma request_refused_no_mutation total_size s p s1 :
  request_memory total_size s = (p, s1) ->
  free_list s1 = free_list s /\ heap s1 = heap s
  /\ ((exists incr, sbrk_log s1 = (incr, SBRK_FAILED) :: sbrk_log s) ->
      p = NULL).
Proof.
  rewrite request_memory_eq.
  destruct (_ <=? _).
  - destruct (Z.eqb_spec (brk s) SBRK_FAILED) as [He|Hne];
      intros [= <- <-]; cbn; repeat split; try reflexivity.
    intros [incr [= _ Hr]]. congruence.
  - intros [= <- <-]. cbn. auto.
Qed.

Lemma extend_heap_refused size total_size previous s p s' :
  extend_heap size total_size previous s = Some (p, s') ->
  (exists incr, sbrk_log s' = (incr, SBRK_FAILED) :: sbrk_log s) ->
  p = NULL /\ free_list s' = free_list s /\ heap s' = heap s.
Proof.
  unfold extend_heap.
  destruct (request_memory total_size s) as [newblock s1] eqn:E.
  pose proof (request_refused_no_mutation _ _ _ _ E) as (Hfl & Hh & Hnull).
  destruct (Z.eqb_spec newblock NULL) as [Hn|Hn].
  - intros [= <- <-] _. auto.
  - intros Hs Hlog. exfalso. apply Hn, Hnull.
    destruct (negb _).
    + destruct (update_block previous _ _) as [s3|] eqn:E3; [|discriminate].
      apply update_block_inv in E3 as (b3 & _ & ->).
      injection Hs as _ <-. exact Hlog.
    + injection Hs as _ <-. exact Hlog.
Qed.

(** A call in which [sbrk] was asked and refused returns [NULL] and has
    changed neither the catalog head nor any header. *)
Lemma refused_call_no_mutation fuel size s p s' :
  my_malloc fuel size s = Some (p, s') ->
  (exists incr, sbrk_log s' = (incr, SBRK_FAILED) :: sbrk_log s) ->
  p = NULL /\ free_list s' = free_list s /\ heap s' = heap s.
Proof.
  unfold my_malloc. destruct (size <? 0).
  { intros [= <- <-] [incr H]. now apply cons_neq in H. }
  destruct (free_list s =? NULL).
  - destruct (request_memory _ s) as [newblock s1] eqn:E.
    pose proof (request_refused_no_mutation _ _ _ _ E) as (Hfl & Hh & Hnull).
    destruct (Z.eqb_spec newblock NULL) as [Hn|Hn].
    + intros [= <- <-] _. auto.
    + cbn [negb]. intros [= <- <-] Hlog. exfalso. apply Hn, Hnull.
      exact Hlog.
  - unfold search_and_allocate.
    destruct (search _ _ _ _ _) as [[current previous]|]; [|discriminate].
    cbn. destruct (negb _).
    + intros H [incr Hlog]. apply take_block_frame in H as (_&_&_&_&H).
      rewrite H in Hlog. now apply cons_neq in Hlog.
    + apply extend_heap_refused.
Qed.

(** C7: when no block of the catalog fits and [sbrk] cannot move the break
    by [size + sizeof(Block)], [my_malloc] returns [NULL] and the state
    differs from the one before the call by the logged refusal only: the
    catalog head and every header are the same.  More generally, any call
    during which [sbrk] was refused returns [NULL] with the catalog head
    and all headers unchanged. *)
Theorem out_of_memory_no_mutation s l fuel size :
  0 <= size <= INT_MAX ->
  catalog (heap s) (free_list s) l = true ->
  no_fit size (heap s) l = true -> (length l <= fuel)%nat ->
  brk_limit s < brk s + (size + sizeof_Block) ->
  my_malloc fuel size s
  = Some (NULL, sbrk_refused (size + sizeof_Block) s)
  /\ free_list (sbrk_refused (size + sizeof_Block) s) = free_list s
  /\ heap (sbrk_refused (size + sizeof_Block) s) = heap s
  /\ (forall fuel' size' s0 p s',
        my_malloc fuel' size' s0 = Some (p, s') ->
        (exists incr, sbrk_log s' = (incr, SBRK_FAILED) :: sbrk_log s0) ->
        p = NULL /\ free_list s' = free_list s0 /\ heap s' = heap s0).
Proof.
  intros Hsz Hc Hn Hlen Hno.
  split; [|split; [reflexivity|split; [reflexivity|]]].
  - now apply my_malloc_refused with (l := l).
  - intros fuel' size' s0 p s'. apply refused_call_no_mutation.
Qed.

(** ** Well-formed states *)

Lemma granted_spec s lo hi :
  granted s lo hi = true <->
  exists increment base,
    In (increment, base) (sbrk_log s) /\ base <> SBRK_FAILED
    /\ base <= lo /\ hi <= base + increment.
Proof.
  unfold granted. rewrite existsb_exists. split.
  - intros ([increment base] & Hin & H).
    rewrite !andb_true_iff, negb_true_iff, Z.eqb_neq, !Z.leb_le in H.
    exists increment, base. tauto.
  - intros (increment & base & Hin & H).
    exists (increment, base). split; [assumption|].
    rewrite !andb_true_iff, negb_true_iff, Z.eqb_neq, !Z.leb_le. tauto.
Qed.

Lemma granted_shrink s lo hi hi' :
  granted s lo hi = true -> hi' <= hi -> granted s lo hi' = true.
Proof.
  rewrite !granted_spec. intros (i & b & Hin & Hb & Hlo & Hhi) Hle.
  exists i, b. repeat split; (assumption || lia).
Qed.

Lemma wf_inv s l :
  wf s l = true ->
  catalog (heap s) (free_list s) l = true
  /\ 0 < brk s /\ brk_limit s < SIZE_MODULUS
  /\ (forall a, In a l ->
        exists b, heap s !! a = Some b
          /\ 0 <= Block.size b < SIZE_MODULUS
          /\ granted s a (a + sizeof_Block + Block.size b) = true
          /\ 0 < a /\ a + sizeof_Block + Block.size b <= brk s).
Proof.
  unfold wf. rewrite !andb_true_iff, Z.ltb_lt, Z.ltb_lt, forallb_forall.
  intros ((((Hc & Hb) & Hl) & Hblocks) & Hlog).
  repeat split; try assumption.
  intros a Ha. specialize (Hblocks a Ha). unfold block_ok in Hblocks.
  destruct (heap s !! a) as [b|]; [|discriminate].
  rewrite !andb_true_iff, Z.leb_le, Z.ltb_lt in Hblocks.
  destruct Hblocks as [[H0 H1] Hg].
  exists b. repeat split; try assumption.
  all: apply granted_spec in Hg as (i & base & Hin & Hne & Hlo & Hhi);
    unfold log_ok in Hlog; rewrite forallb_forall in Hlog;
    specialize (Hlog _ Hin); cbn in Hlog;
    apply Z.eqb_neq in Hne; rewrite Hne in Hlog; cbn in Hlog;
    rewrite andb_true_iff, Z.ltb_lt, Z.leb_le in Hlog; lia.
Qed.

(** The three ways in which a call with a valid argument ends in a
    well-formed state. *)
Lemma my_malloc_outcome s l fuel size :
  wf s l = true -> (length l <= fuel)%nat -> 0 <= size <= INT_MAX ->
  exists p s',
    my_malloc fuel size s = Some (p, s')
    /\ ((p = NULL /\ s' = sbrk_refused (size + sizeof_Block) s)
        \/ (p <> NULL
            /\ (sbrk_log s' = sbrk_log s
                \/ exists r, r <> SBRK_FAILED
                     /\ sbrk_log s' = (size + sizeof_Block, r) :: sbrk_log s)
            /\ exists b,
                 heap s' !! (p - sizeof_Block) = Some b
                 /\ size <= Block.size b
                 /\ granted s' (p - sizeof_Block) (p + Block.size b) = true)).
Proof.
  intros Hwf Hlen Hsz.
  destruct (wf_inv s l Hwf) as (Hc & Hb & Hlim & Hblocks).
  assert (Hf : brk s + (size + sizeof_Block) <= brk_limit s ->
               brk s <> SBRK_FAILED).
  { c_arith. }
  assert (Hnew : brk s + (size + sizeof_Block) <= brk_limit s ->
            granted (sbrk_granted (size + sizeof_Block) s)
                    (brk s + sizeof_Block - sizeof_Block)
                    (brk s + sizeof_Block + size) = true).
  { intros Hroom. apply granted_spec.
    exists (size + sizeof_Block), (brk s). cbn.
    repeat split; [now left|now apply Hf|lia|lia]. }
  destruct (first_fit_split size (heap s) l)
    as [Hn|(l1 & a & l2 & -> & Hn & Ha)].
  - destruct (Z.le_gt_cases (brk s + (size + sizeof_Block)) (brk_limit s))
      as [Hroom|Hno].
    + destruct l as [|x l'] eqn:El.
      * cbn in Hc. apply Z.eqb_eq in Hc.
        rewrite my_malloc_empty_catalog, first_block_granted
          by (assumption || lia).
        eexists _, _. split; [reflexivity|]. right.
        split; [c_arith|]. split.
        { right. exists (brk s). split; [now apply Hf|reflexivity]. }
        eexists. cbn [heap set_free_list store_block set_heap].
        replace (brk s + sizeof_Block - sizeof_Block) with (brk s) at 1
          by lia.
        rewrite lookup_insert_eq. split; [reflexivity|].
        cbn [Block.size]. split; [lia|]. now apply Hnew.
      * rewrite <- El in *. assert (Hne : l <> []) by congruence.
        pose proof (last_in l NULL Hne) as Hin.
        destruct (Hblocks _ Hin) as (bl & Hbl & Hbls & _ & Hpos & Hend).
        assert (Hd : brk s <> List.last l NULL)
          by c_arith.
        rewrite (my_malloc_appended s l fuel size bl) by assumption.
        eexists _, _. split; [reflexivity|]. right.
        split; [c_arith|]. split.
        { right. exists (brk s). split; [now apply Hf|reflexivity]. }
        eexists. cbn [heap set_heap].
        replace (brk s + sizeof_Block - sizeof_Block) with (brk s) at 1
          by lia.
        rewrite lookup_insert_ne, lookup_insert_eq by congruence.
        split; [reflexivity|]. cbn [Block.size]. split; [lia|].
        now apply Hnew.
    + rewrite (my_malloc_refused s l fuel size) by (assumption || lia).
      eexists _, _. split; [reflexivity|]. now left.
  - assert (Hin : In a (l1 ++ a :: l2)) by (apply in_or_app; right; now left).
    destruct (Hblocks _ Hin) as (b & Hb' & Hbs & Hg & Hpos & Hend).
    assert (Hlen' : (length l1 < fuel)%nat).
    { rewrite length_app in Hlen. cbn in Hlen. lia. }
    rewrite (my_malloc_hit s l1 a l2 fuel size b) by (assumption || lia).
    unfold fits in Ha. rewrite Hb' in Ha.
    apply (qualifies_spec size b Hsz) in Ha as [Hfree Hgt].
    eexists _, _. split; [reflexivity|]. right.
    split; [c_arith|].
    split; [now left|].
    cbn [heap set_heap]. unfold granted. cbn [sbrk_log set_heap].
    fold (granted s (a + sizeof_Block - sizeof_Block)).
    replace (a + sizeof_Block - sizeof_Block) with a by lia.
    unfold taken_heap. destruct (too_big size b).
    + rewrite lookup_insert_eq. eexists. split; [reflexivity|].
      cbn [Block.size]. rewrite to_size_t_nonneg by assumption.
      split; [lia|].
      apply granted_shrink with (hi := a + sizeof_Block + Block.size b);
        [assumption|lia].
    + rewrite lookup_insert_eq. eexists. split; [reflexivity|].
      cbn [Block.size Block.set_is_free]. split; [lia|]. exact Hg.
Qed.

(** Every state the program can reach is well formed, with an empty
    catalog. *)
Lemma reachable_wf s : reachable s -> wf s [] = true.
Proof.
  induction 1 as [brk0 limit Hb Hl|s fuel size p s' Hr IH Hint Hcall].
  - unfold wf. cbn. apply Z.ltb_lt in Hb, Hl. now rewrite Hb, Hl.
  - pose proof (reachable_free_list s Hr) as Hfl.
    destruct (Z.ltb_spec size 0) as [Hneg|Hpos].
    + unfold my_malloc in Hcall. apply Z.ltb_lt in Hneg.
      rewrite Hneg in Hcall. now injection Hcall as _ <-.
    + assert (Hsz : 0 <= size <= INT_MAX) by (destruct Hint; lia).
      rewrite my_malloc_empty_catalog in Hcall by assumption.
      unfold wf in IH |- *.
      rewrite !andb_true_iff, !Z.ltb_lt in IH.
      destruct IH as ((((_ & Hb) & Hl) & _) & Hlog).
      destruct (Z.le_gt_cases (brk s + (size + sizeof_Block)) (brk_limit s))
        as [Hroom|Hno].
      * rewrite first_block_granted in Hcall by assumption.
        injection Hcall as _ <-. cbn.
        assert (H1 : (0 <? brk s + (size + sizeof_Block)) = true)
          by (apply Z.ltb_lt; c_arith).
        apply Z.ltb_lt in Hl. rewrite H1, Hl. cbn.
        assert (H2 : (brk s =? SBRK_FAILED) = false).
        { apply Z.eqb_neq. apply Z.ltb_lt in Hl. c_arith. }
        apply Z.ltb_lt in Hb as Hb'. rewrite H2, Hb', Z.leb_refl. cbn.
        unfold log_ok in Hlog. rewrite forallb_forall in Hlog |- *.
        intros [increment base] Hin. specialize (Hlog _ Hin). cbn in Hlog.
        apply orb_true_iff in Hlog as [Hfail|Hok];
          [now rewrite Hfail|].
        apply andb_true_iff in Hok as [H3 H4]. rewrite H3.
        apply Z.leb_le in H4.
        assert (H5 : (base + increment <=? brk s + (size + sizeof_Block))
                     = true)
          by (apply Z.leb_le; c_arith).
        rewrite H5. apply orb_true_r.
      * rewrite first_block_refused in Hcall by assumption.
        injection Hcall as _ <-. cbn.
        apply Z.ltb_lt in Hb, Hl. rewrite Hfl, Hb, Hl, Z.eqb_refl.
        exact Hlog.
Qed.

(** ** Results of a call *)

(** C1: in a well-formed state, a call with a size that is not negative
    returns; it returns either [NULL], the request to [sbrk] for [size +
    sizeof(Block)] bytes having been refused, or a pointer that follows a
    header whose recorded payload size is at least [size], header and
    payload lying inside one region obtained from [sbrk]. *)
Theorem my_malloc_block_or_out_of_memory s l fuel size :
  wf s l = true -> (length l <= fuel)%nat -> 0 <= size <= INT_MAX ->
  exists p s',
    my_malloc fuel size s = Some (p, s')
    /\ ((p = NULL
         /\ sbrk_log s' = (size + sizeof_Block, SBRK_FAILED) :: sbrk_log s)
        \/ (p <> NULL
            /\ exists b,
                 heap s' !! (p - sizeof_Block) = Some b
                 /\ size <= Block.size b
                 /\ granted s' (p - sizeof_Block) (p + Block.size b) = true)).
Proof.
  intros Hwf Hlen Hsz.
  destruct (my_malloc_outcome s l fuel size Hwf Hlen Hsz)
    as (p & s' & Hcall & [[Hp ->]|(Hp & _ & Hb)]).
  - exists p, (sbrk_refused (size + sizeof_Block) s). split; [assumption|].
    left. split; [assumption|reflexivity].
  - exists p, s'. split; [assumption|]. right. now split.
Qed.

(** C9 (as the program behaves): in a well-formed state every call returns,
    and both kinds of failure return the same value: a call with a negative
    size returns [NULL], and a call with a valid size returns [NULL] exactly
    when its request to [sbrk] was refused; hence every pointer returned by
    a successful call, also one for size zero, differs from [NULL]. *)
Theorem failure_value_is_null s l fuel size :
  wf s l = true -> (length l <= fuel)%nat -> int_range size ->
  exists p s',
    my_malloc fuel size s = Some (p, s')
    /\ (size < 0 -> p = NULL)
    /\ (0 <= size ->
        (p = NULL <->
         sbrk_log s' = (size + sizeof_Block, SBRK_FAILED) :: sbrk_log s)).
Proof.
  intros Hwf Hlen [Hlo Hhi].
  destruct (Z.ltb_spec size 0) as [Hneg|Hpos].
  - exists NULL, s. unfold my_malloc. apply Z.ltb_lt in Hneg as Hneg'.
    rewrite Hneg'. split; [reflexivity|]. split; [reflexivity|]. lia.
  - destruct (my_malloc_outcome s l fuel size Hwf Hlen (conj Hpos Hhi))
      as (p & s' & Hcall & [[Hp ->]|(Hp & Hlog & _)]).
    + exists p, (sbrk_refused (size + sizeof_Block) s).
      split; [assumption|]. split; [lia|]. intros _.
      split; [reflexivity|intros _; assumption].
    + exists p, s'. split; [assumption|]. split; [lia|]. intros _.
      split; [contradiction|]. intros Hfail. exfalso.
      destruct Hlog as [Hsame|(r & Hr & Hgr)].
      * rewrite Hsame in Hfail. now apply cons_neq in Hfail.
      * rewrite Hgr in Hfail. injection Hfail as Hfail. contradiction.
Qed.

(** ** Worked examples *)

Lemma my_malloc_block_or_out_of_memory_example :
  exists s' b,
    my_malloc 2 10 heap_with_free_block = Some (1024, s')
    /\ heap s' !! 1000 = Some b /\ 10 <= Block.size b.
Proof.
  destruct (my_malloc_block_or_out_of_memory
              heap_with_free_block [1000; 2000] 2 10)
    as (p & s' & Hcall & H).
  - reflexivity.
  - cbn; lia.
  - unfold INT_MAX; lia.
  - assert (Hp : p = 1024) by (vm_compute in Hcall; congruence).
    subst p. destruct H as [[Hnull _]|(_ & b & Hb & Hsz & _)];
      [discriminate|].
    exists s', b. auto.
Defined.

Lemma search_selects_first_fit_example :
  exists current previous,
    search 2 10 (heap heap_with_free_block) (free_list heap_with_free_block)
           NULL = Some (current, previous)
    /\ (current <> NULL ->
        exists s',
          my_malloc 2 10 heap_with_free_block
          = Some (current + sizeof_Block, s')).
Proof.
  destruct (search_selects_first_fit heap_with_free_block [1000; 2000] 2 10)
    as (current & previous & Hs & _ & Hhit).
  - unfold INT_MAX; lia.
  - reflexivity.
  - cbn; lia.
  - exists current, previous. split; [exact Hs|].
    intros Hne.
    destruct (Hhit Hne) as (l1 & l2 & b & _ & _ & _ & _ & _ & _ & _ & H).
    exact H.
Defined.

Lemma split_policy_example :
  exists s',
    my_malloc 1 10 heap_with_free_block = Some (1000 + sizeof_Block, s')
    /\ heap s' =
       <[1000 := Block.mk 10 (1000 + sizeof_Block + 10) 0]>
         (<[1000 + sizeof_Block + 10 := Block.mk (100 - sizeof_Block - 10)
                                                  2000 1]>
            (heap heap_with_free_block)).
Proof.
  destruct (split_policy heap_with_free_block [] 1000 [2000]
              (Block.mk 100 2000 1) 1 10)
    as (s' & Hcall & _ & _ & Hsplit & _).
  - unfold INT_MAX; lia.
  - reflexivity.
  - reflexivity.
  - reflexivity.
  - reflexivity.
  - cbn; lia.
  - reflexivity.
  - cbn; unfold SIZE_MODULUS; lia.
  - exists s'. split; [exact Hcall|].
    destruct Hsplit as (_ & _ & Hheap & _); [cbn; unfold sizeof_Block; lia|].
    exact Hheap.
Defined.

Lemma catalog_head_stays_empty_example :
  free_list state_after_one_call = NULL
  /\ my_malloc 0 16 state_after_one_call
     = Some (first_block 16 state_after_one_call).
Proof.
  destruct (catalog_head_stays_empty state_after_one_call)
    as (Hfl & _ & Hcall & _ & _).
  - apply (reachable_call (initial_state 4096 65536) 0 16 4120).
    + apply reachable_initial; unfold SIZE_MODULUS; lia.
    + unfold int_range, INT_MIN, INT_MAX; lia.
    + reflexivity.
  - split; [exact Hfl|]. exact (Hcall 0%nat 16).
Defined.

Lemma two_allocations_example :
  exists p1 s1 p2 s2,
    my_malloc 0 16 (initial_state 4096 65536) = Some (p1, s1)
    /\ my_malloc 0 16 s1 = Some (p2, s2)
    /\ p1 = 4120 /\ p2 = 4160.
Proof.
  destruct (two_allocations 4096 65536 0 0)
    as (p1 & s1 & p2 & s2 & H1 & H2 & Hp1 & Hp2 & _).
  - lia.
  - unfold SIZE_MODULUS; lia.
  - unfold sizeof_Block; lia.
  - exists p1, s1, p2, s2. repeat split; assumption.
Defined.

Lemma extend_after_exhausted_walk_example :
  exists s',
    my_malloc 2 16 heap_all_in_use = Some (4096 + sizeof_Block, s')
    /\ sbrk_log s' = (16 + sizeof_Block, 4096) :: sbrk_log heap_all_in_use
    /\ heap s' !! 4096 = Some (Block.mk 16 NULL 0)
    /\ catalog (heap s') (free_list s') [1000; 2000; 4096] = true.
Proof.
  destruct (extend_after_exhausted_walk heap_all_in_use [1000; 2000] 2 16)
    as (_ & H).
  - unfold INT_MAX; lia.
  - reflexivity.
  - reflexivity.
  - reflexivity.
  - discriminate.
  - reflexivity.
  - cbn; lia.
  - destruct H
      as (s' & b_last & Hcall & _ & _ & _ & Hnew & _ & _ & Hlog & Hcat).
    + cbn; unfold SIZE_MODULUS; lia.
    + cbn; unfold sizeof_Block; lia.
    + exists s'. repeat split; assumption.
Defined.

Lemma out_of_memory_no_mutation_example :
  my_malloc 2 16 heap_at_limit
  = Some (NULL, sbrk_refused (16 + sizeof_Block) heap_at_limit).
Proof.
  destruct (out_of_memory_no_mutation heap_at_limit [1000; 2000] 2 16)
    as (H & _).
  - unfold INT_MAX; lia.
  - reflexivity.
  - reflexivity.
  - cbn; lia.
  - cbn; unfold sizeof_Block; lia.
  - exact H.
Defined.

Lemma failure_value_is_null_example :
  exists p s',
    my_malloc 2 0 heap_all_in_use = Some (p, s')
    /\ (p = NULL <->
        sbrk_log s' = (0 + sizeof_Block, SBRK_FAILED)
                      :: sbrk_log heap_all_in_use).
Proof.
  destruct (failure_value_is_null heap_all_in_use [1000; 2000] 2 0)
    as (p & s' & Hcall & _ & H).
  - reflexivity.
  - cbn; lia.
  - unfold int_range, INT_MIN, INT_MAX; lia.
  - exists p, s'. split; [exact Hcall|]. apply H. lia.
Defined.

Lemma my_malloc_negative_size_no_effect_example :
  exists p s',
    my_malloc 0 (-1) heap_with_free_block = Some (p, s')
    /\ p = NULL /\ s' = heap_with_free_block.
Proof.
  destruct (my_malloc_negative_size_no_effect 0 (-1) heap_with_free_block)
    as (p & s' & Hcall & Hp & Hs & _).
  - lia.
  - exists p, s'. auto.
Defined.

(** ** Where the design document and the program part *)

(** Against C3 as written: the block at [1000] has its payload at [1024];
    after [my_malloc(10)] split it, the remainder header is at [1024 + 10],
    and there is no header [sizeof(Block) + 10] bytes after the start of the
    payload. *)
Lemma remainder_follows_the_payload :
  exists s',
    my_malloc 1 10 heap_with_free_block = Some (1024, s')
    /\ heap s' !! (1024 + (sizeof_Block + 10)) = None
    /\ heap s' !! (1024 + 10) = Some (Block.mk 66 2000 1).
Proof. eexists. repeat split; reflexivity. Qed.

(** Against C5 as written: after two calls [my_malloc(16)] from the initial
    state the second block, at [4136], is in no chain that starts at the
    catalog head, and the first block still has no successor. *)
Lemma second_block_outside_catalog :
  exists s1 s2,
    my_malloc 0 16 (initial_state 4096 65536) = Some (4120, s1)
    /\ my_malloc 0 16 s1 = Some (4160, s2)
    /\ free_list s2 = NULL
    /\ heap s2 !! 4096 = Some (Block.mk 16 NULL 0)
    /\ ~ (exists l,
            catalog (heap s2) (free_list s2) l = true /\ In (4160 - 24) l).
Proof.
  eexists _, _. split; [reflexivity|]. split; [reflexivity|].
  split; [reflexivity|]. split; [reflexivity|].
  intros (l & Hc & Hin).
  apply catalog_nil_head in Hc. subst l. destruct Hin.
Qed.

(** Against C9 as written: with the break at its limit, the call with the
    invalid size [-1] and the call for [16] bytes that [sbrk] refuses return
    the same value. *)
Lemma failures_return_the_same_value :
  fst <$> my_malloc 0 (-1) (initial_state 4096 4096) = Some NULL
  /\ fst <$> my_malloc 0 16 (initial_state 4096 4096) = Some NULL
  /\ (sbrk_log ∘ snd) <$> my_malloc 0 16 (initial_state 4096 4096)
     = Some [(40, SBRK_FAILED)]
  /\ fst <$> my_malloc 0 (-1) (initial_state 4096 4096)
     = fst <$> my_malloc 0 16 (initial_state 4096 4096).
Proof. repeat split; reflexivity. Qed.

(** * Further properties of the allocator *)

(** ** [request_memory] *)

(** X1: for a size that [sbrk] receives unchanged (at most
    [INTPTR_MAX]), with the break at or below its limit and both inside
    the address space, [request_memory] never returns [(void * )-1]: it returns [NULL] exactly
    when the break cannot advance by [size] bytes, and leaves the break
    where it was; otherwise it returns the old break and the break has
    advanced by exactly [size] bytes.  It logs one call of [sbrk] and
    touches neither the catalog head nor any header. *)
Theorem request_memory_result size s p s' :
  0 <= size <= INTPTR_MAX ->
  0 < brk s < SBRK_FAILED -> brk s <= brk_limit s < SIZE_MODULUS ->
  request_memory size s = (p, s') ->
  p <> SBRK_FAILED
  /\ (p = NULL <-> brk_limit s < brk s + size)
  /\ (p = NULL -> brk s' = brk s)
  /\ (p <> NULL -> p = brk s /\ brk s' = brk s + size
                   /\ brk s' < SIZE_MODULUS)
  /\ free_list s' = free_list s /\ heap s' = heap s
  /\ brk_limit s' = brk_limit s
  /\ sbrk_log s' = (size, if p =? NULL then SBRK_FAILED else p) :: sbrk_log s.
Proof.
  intros Hsize [Hpos Hlt] [Hbrk Hlim]. rewrite request_memory_eq.
  assert (Hf : (brk s =? SBRK_FAILED) = false) by (apply Z.eqb_neq; lia).
  assert (Hn : (brk s =? NULL) = false) by (apply Z.eqb_neq; c_arith).
  destruct (Z.leb_spec (brk s + size) (brk_limit s)) as [Hle|Hgt].
  - rewrite Hf. intros [= <- <-]. cbn. rewrite Hn.
    repeat split; try (intros; c_arith); try reflexivity; try lia.
  - intros [= <- <-]. cbn.
    repeat split; try (intros; c_arith); try reflexivity;
      try (intros H; now contradiction H).
Qed.

Lemma request_memory_result_example :
  exists s',
    request_memory 40 (initial_state 4096 65536) = (4096, s')
    /\ brk s' = 4136.
Proof.
  destruct (request_memory 40 (initial_state 4096 65536)) as [p s'] eqn:E.
  destruct (request_memory_result 40 (initial_state 4096 65536) p s')
    as (_ & _ & _ & Hok & _).
  - unfold INTPTR_MAX. lia.
  - cbn. unfold SBRK_FAILED, SIZE_MODULUS. lia.
  - cbn. unfold SIZE_MODULUS. lia.
  - exact E.
  - assert (Hp : p = 4096) by (vm_compute in E; congruence).
    exists s'. subst p. split; [reflexivity|].
    apply Hok. discriminate.
Defined.


(** ** Calls of [sbrk] made by [my_malloc] *)

Lemma request_memory_frame total_size s p s1 :
  request_memory total_size s = (p, s1) ->
  brk_limit s1 = brk_limit s
  /\ exists r,
       sbrk_log s1 = (total_size, r) :: sbrk_log s
       /\ (brk s1 = brk s \/ brk s1 = brk s + total_size).
Proof.
  rewrite request_memory_eq.
  destruct (_ <=? _); intros [= <- <-]; cbn; eauto.
Qed.

Lemma extend_heap_break size total_size previous s p s' :
  extend_heap size total_size previous s = Some (p, s') ->
  brk_limit s' = brk_limit s
  /\ exists r,
       sbrk_log s' = (total_size, r) :: sbrk_log s
       /\ (brk s' = brk s \/ brk s' = brk s + total_size).
Proof.
  unfold extend_heap.
  destruct (request_memory total_size s) as [newblock s1] eqn:E.
  apply request_memory_frame in E.
  destruct (newblock =? NULL); [now intros [= <- <-]|].
  destruct (negb _).
  - destruct (update_block previous _ _) as [s3|] eqn:E3; [|discriminate].
    apply update_block_inv in E3 as (b3 & _ & ->).
    now intros [= <- <-].
  - now intros [= <- <-].
Qed.

(** X2: a call with a valid size asks [sbrk] at most once, and then for
    exactly [size + sizeof(Block)] bytes; it never lowers the program break
    and never changes the limit of the break. *)
Theorem my_malloc_one_request fuel size s p s' :
  0 <= size <= INT_MAX ->
  my_malloc fuel size s = Some (p, s') ->
  brk_limit s' = brk_limit s /\ brk s <= brk s'
  /\ ((sbrk_log s' = sbrk_log s /\ brk s' = brk s)
      \/ exists r,
           sbrk_log s' = (size + sizeof_Block, r) :: sbrk_log s
           /\ (brk s' = brk s
               \/ brk s' = brk s + (size + sizeof_Block))).
Proof.
  intros Hsz. unfold my_malloc.
  assert (Hs : (size <? 0) = false) by (apply Z.ltb_ge; lia).
  rewrite Hs, total_size_nonneg by assumption.
  assert (Hgoal : forall t : state,
    brk_limit t = brk_limit s
    /\ (exists r, sbrk_log t = (size + sizeof_Block, r) :: sbrk_log s
          /\ (brk t = brk s \/ brk t = brk s + (size + sizeof_Block))) ->
    brk_limit t = brk_limit s /\ brk s <= brk t
    /\ ((sbrk_log t = sbrk_log s /\ brk t = brk s)
        \/ exists r,
             sbrk_log t = (size + sizeof_Block, r) :: sbrk_log s
             /\ (brk t = brk s
                 \/ brk t = brk s + (size + sizeof_Block)))).
  { intros t (Hl & r & Hlog & Hb). split; [assumption|].
    split; [c_arith|]. right. eauto. }
  destruct (free_list s =? NULL).
  - destruct (request_memory _ s) as [newblock s1] eqn:E.
    apply request_memory_frame in E.
    destruct (newblock =? NULL); cbn [negb].
    + intros [= <- <-]. now apply Hgoal.
    + intros [= <- <-]. now apply Hgoal.
  - unfold search_and_allocate.
    destruct (search _ _ _ _ _) as [[current previous]|]; [|discriminate].
    cbn. destruct (negb _).
    + intros H. apply take_block_frame in H as (_ & _ & Hb & Hl & Hlog).
      split; [assumption|]. split; [lia|]. left. now split.
    + intros H. apply extend_heap_break in H. now apply Hgoal.
Qed.

Lemma my_malloc_one_request_example :
  exists p s', my_malloc 2 16 heap_all_in_use = Some (p, s')
    /\ brk heap_all_in_use <= brk s'.
Proof.
  destruct (my_malloc 2 16 heap_all_in_use) as [[p s']|] eqn:E;
    [|vm_compute in E; discriminate].
  destruct (my_malloc_one_request 2 16 heap_all_in_use p s')
    as (_ & Hb & _).
  - unfold INT_MAX; lia.
  - exact E.
  - exists p, s'. split; [reflexivity|exact Hb].
Defined.

(** ** The log is an observer *)

Lemma erase_log_inv s1 s2 :
  erase_log s1 = erase_log s2 ->
  free_list s1 = free_list s2 /\ heap s1 = heap s2
  /\ brk s1 = brk s2 /\ brk_limit s1 = brk_limit s2.
Proof. unfold erase_log. intros [= H1 H2 H3 H4]. auto. Qed.

(** What a call returns, and the catalog head, the headers and the program
    break it leaves, do not depend on the record of [sbrk] calls. *)
Lemma my_malloc_same_machine fuel size s1 s2 :
  erase_log s1 = erase_log s2 ->
  erase_result (my_malloc fuel size s1)
  = erase_result (my_malloc fuel size s2).
Proof.
  intros H. apply erase_log_inv in H as (Hf & Hh & Hb & Hl).
  destruct s1 as [f1 h1 b1 l1 g1], s2 as [f2 h2 b2 l2 g2]. cbn in *.
  subst f2 h2 b2 l2.
  unfold my_malloc. cbn [free_list].
  destruct (size <? 0); [reflexivity|].
  destruct (f1 =? NULL).
  - rewrite !request_memory_eq. cbn.
    destruct (_ <=? l1); [|reflexivity].
    destruct (b1 =? SBRK_FAILED); [reflexivity|].
    destruct (b1 =? NULL); reflexivity.
  - unfold search_and_allocate. cbn [heap free_list].
    destruct (search fuel size h1 f1 NULL) as [[current previous]|];
      [|reflexivity].
    cbn. destruct (negb (current =? NULL)).
    + unfold take_block, update_block, store_block, set_heap. cbn.
      destruct (h1 !! current); [|reflexivity]. cbn.
      destruct (_ !! current); [|reflexivity]. cbn.
      destruct (too_big _ _); [|reflexivity].
      destruct (_ !! current); [|reflexivity]. cbn.
      destruct (_ !! current); reflexivity.
    + unfold extend_heap. rewrite !request_memory_eq. cbn.
      destruct (_ <=? l1); [|reflexivity].
      destruct (b1 =? SBRK_FAILED); [reflexivity|].
      destruct (b1 =? NULL); [reflexivity|].
      destruct (negb _); [|reflexivity].
      unfold update_block, store_block, set_heap. cbn.
      destruct (_ !! previous); reflexivity.
Qed.


(** X3: a call that fails because [sbrk] refused the request leaves nothing
    behind that a later call can see: whatever is asked next, the result and
    the state it leaves (the record of [sbrk] calls apart) are those that
    the same call gives in the state before the failed call. *)
Theorem refused_call_can_be_retried s l fuel size :
  0 <= size <= INT_MAX ->
  catalog (heap s) (free_list s) l = true ->
  no_fit size (heap s) l = true -> (length l <= fuel)%nat ->
  brk_limit s < brk s + (size + sizeof_Block) ->
  exists s1,
    my_malloc fuel size s = Some (NULL, s1)
    /\ forall fuel' size',
         erase_result (my_malloc fuel' size' s1)
         = erase_result (my_malloc fuel' size' s).
Proof.
  intros Hsz Hc Hn Hlen Hno.
  exists (sbrk_refused (size + sizeof_Block) s).
  split; [now apply my_malloc_refused with (l := l)|].
  intros fuel' size'. now apply my_malloc_same_machine.
Qed.

Lemma refused_call_can_be_retried_example :
  exists s1,
    my_malloc 2 16 heap_at_limit = Some (NULL, s1)
    /\ erase_result (my_malloc 2 0 s1)
       = erase_result (my_malloc 2 0 heap_at_limit).
Proof.
  destruct (refused_call_can_be_retried heap_at_limit [1000; 2000] 2 16)
    as (s1 & Hcall & Hnext).
  - unfold INT_MAX; lia.
  - reflexivity.
  - reflexivity.
  - cbn; lia.
  - cbn; unfold sizeof_Block; lia.
  - exists s1. split; [exact Hcall|apply Hnext].
Defined.

(** ** The blocks of a run *)

Lemma reachable_break s :
  reachable s -> 0 < brk s /\ brk_limit s < SIZE_MODULUS.
Proof.
  intros Hr. apply reachable_wf, wf_inv in Hr. tauto.
Qed.

(** What a call does in a reachable state. *)
Lemma reachable_call_cases s fuel size p s' :
  reachable s -> int_range size ->
  my_malloc fuel size s = Some (p, s') ->
  brk_limit s' = brk_limit s
  /\ ((p = NULL /\ heap s' = heap s /\ brk s' = brk s
       /\ (sbrk_log s' = sbrk_log s
           \/ exists t, sbrk_log s' = (t, SBRK_FAILED) :: sbrk_log s))
      \/ (0 <= size <= INT_MAX /\ p = brk s + sizeof_Block
          /\ brk s + (size + sizeof_Block) <= brk_limit s
          /\ heap s' = <[brk s := Block.mk size NULL 0]> (heap s)
          /\ brk s' = brk s + (size + sizeof_Block)
          /\ sbrk_log s' = (size + sizeof_Block, brk s) :: sbrk_log s)).
Proof.
  intros Hr [Hlo Hhi] Hcall.
  pose proof (reachable_free_list s Hr) as Hfl.
  destruct (reachable_break s Hr) as [Hb Hl].
  destruct (Z.ltb_spec size 0) as [Hneg|Hpos].
  - unfold my_malloc in Hcall. apply Z.ltb_lt in Hneg.
    rewrite Hneg in Hcall. injection Hcall as <- <-.
    split; [reflexivity|]. left. auto.
  - assert (Hsz : 0 <= size <= INT_MAX) by lia.
    rewrite my_malloc_empty_catalog in Hcall by assumption.
    destruct (Z.le_gt_cases (brk s + (size + sizeof_Block)) (brk_limit s))
      as [Hroom|Hno].
    + rewrite first_block_granted in Hcall by assumption.
      injection Hcall as <- <-. split; [reflexivity|]. right. cbn. auto 10.
    + rewrite first_block_refused in Hcall by assumption.
      injection Hcall as <- <-. split; [reflexivity|]. left. cbn. eauto 10.
Qed.

Lemma reachable_heap_inv s :
  reachable s ->
  forall a b, heap s !! a = Some b ->
    0 < a /\ 0 <= Block.size b <= INT_MAX
    /\ a + sizeof_Block + Block.size b <= brk s
    /\ a + sizeof_Block + Block.size b <= brk_limit s
    /\ Block.is_free b = 0 /\ Block.next b = NULL
    /\ In (Block.size b + sizeof_Block, a) (sbrk_log s).
Proof.
  induction 1 as [brk0 limit Hb Hl|s fuel size p s' Hr IH Hint Hcall].
  - intros a b Hab. cbn in Hab. now rewrite lookup_empty in Hab.
  - destruct (reachable_break s Hr) as [Hb Hl].
    destruct (reachable_call_cases s fuel size p s' Hr Hint Hcall)
      as (Hlim & [(_ & Hh & Hbrk & Hlog)|(Hsz & _ & Hroom & Hh & Hbrk & Hlog)]);
      intros a b Hab; rewrite Hh in Hab; rewrite Hlim.
    + destruct (IH a b Hab) as (H1 & H2 & H3 & H3' & H4 & H5 & H6).
      rewrite Hbrk. repeat split; try assumption; try lia.
      destruct Hlog as [->|[t ->]]; [assumption|now right].
    + rewrite Hbrk, Hlog.
      destruct (Z.eq_dec (brk s) a) as [<-|Hne].
      * rewrite lookup_insert_eq in Hab. injection Hab as <-. cbn.
        repeat split; try assumption; try c_arith. now left.
      * rewrite lookup_insert_ne in Hab by assumption.
        destruct (IH a b Hab) as (H1 & H2 & H3 & H3' & H4 & H5 & H6).
        repeat split; try assumption; try c_arith. now right.
Qed.

Lemma state_after_one_call_reachable : reachable state_after_one_call.
Proof.
  apply (reachable_call (initial_state 4096 65536) 0 16 4120).
  - apply reachable_initial; unfold SIZE_MODULUS; lia.
  - unfold int_range, INT_MIN, INT_MAX; lia.
  - reflexivity.
Defined.

(** X4: in every state the program can reach, each header in memory is a
    block in use with no successor; its recorded payload size lies between
    [0] and [INT_MAX]; header and payload fill exactly one region that a
    granted call of [sbrk] handed out, and end at or below the program
    break. *)
Theorem reachable_blocks s a b :
  reachable s -> heap s !! a = Some b ->
  Block.is_free b = 0 /\ Block.next b = NULL
  /\ 0 <= Block.size b <= INT_MAX
  /\ In (sizeof_Block + Block.size b, a) (sbrk_log s)
  /\ a <> SBRK_FAILED /\ 0 < a
  /\ a + sizeof_Block + Block.size b <= brk s.
Proof.
  intros Hr Hab.
  destruct (reachable_heap_inv s Hr a b Hab)
    as (H1 & H2 & H3 & H3' & H4 & H5 & H6).
  destruct (reachable_break s Hr) as [Hb Hl].
  rewrite Z.add_comm. repeat split; try assumption; try lia.
  c_arith.
Qed.

Lemma reachable_blocks_example :
  Block.is_free (Block.mk 16 NULL 0) = 0
  /\ In (sizeof_Block + 16, 4096) (sbrk_log state_after_one_call).
Proof.
  destruct (reachable_blocks state_after_one_call 4096 (Block.mk 16 NULL 0))
    as (H1 & _ & _ & H4 & _).
  - exact state_after_one_call_reachable.
  - reflexivity.
  - split; [exact H1|exact H4].
Defined.

(** X5: in every state the program can reach, no two blocks overlap: of
    two headers at different addresses, one block (header and payload) ends
    at or before the address where the other starts. *)
Theorem reachable_blocks_disjoint s :
  reachable s ->
  forall a b a' b',
    heap s !! a = Some b -> heap s !! a' = Some b' -> a <> a' ->
    a + sizeof_Block + Block.size b <= a'
    \/ a' + sizeof_Block + Block.size b' <= a.
Proof.
  induction 1 as [brk0 limit Hb Hl|s fuel size p s' Hr IH Hint Hcall].
  - intros a b a' b' Hab. cbn in Hab. now rewrite lookup_empty in Hab.
  - pose proof (reachable_heap_inv s Hr) as Hinv.
    destruct (reachable_call_cases s fuel size p s' Hr Hint Hcall)
      as (_ & [(_ & Hh & _)|(Hsz & _ & _ & Hh & _)]);
      intros a b a' b' Hab Hab' Hne; rewrite Hh in Hab, Hab'.
    + now apply IH.
    + destruct (Z.eq_dec (brk s) a) as [Ha|Ha];
        destruct (Z.eq_dec (brk s) a') as [Ha'|Ha'].
      * congruence.
      * rewrite lookup_insert_ne in Hab' by assumption.
        destruct (Hinv a' b' Hab') as (_ & _ & Hend & _). right. lia.
      * rewrite lookup_insert_ne in Hab by assumption.
        destruct (Hinv a b Hab) as (_ & _ & Hend & _). left. lia.
      * rewrite lookup_insert_ne in Hab, Hab' by assumption.
        now apply IH.
Qed.

Lemma state_after_two_calls_reachable : reachable state_after_two_calls.
Proof.
  apply (reachable_call state_after_one_call 0 16 4160).
  - exact state_after_one_call_reachable.
  - unfold int_range, INT_MIN, INT_MAX; lia.
  - reflexivity.
Defined.

Lemma reachable_blocks_disjoint_example :
  4096 + sizeof_Block + 16 <= 4136 \/ 4136 + sizeof_Block + 16 <= 4096.
Proof.
  apply (reachable_blocks_disjoint state_after_two_calls
           state_after_two_calls_reachable
           4096 (Block.mk 16 NULL 0) 4136 (Block.mk 16 NULL 0)).
  - reflexivity.
  - reflexivity.
  - lia.
Defined.

(** X6: in a state the program can reach, a call changes no header that is
    already in memory; when it succeeds, the pointer it returns belongs to a
    block whose header was not in memory before, holds the requested size,
    and lies above every block that was there. *)
Theorem reachable_call_keeps_blocks s fuel size p s' :
  reachable s -> int_range size ->
  my_malloc fuel size s = Some (p, s') ->
  (forall a b, heap s !! a = Some b -> heap s' !! a = Some b)
  /\ (p <> NULL ->
      heap s !! (p - sizeof_Block) = None
      /\ heap s' !! (p - sizeof_Block) = Some (Block.mk size NULL 0)
      /\ forall a b, heap s !! a = Some b ->
           a + sizeof_Block + Block.size b <= p - sizeof_Block).
Proof.
  intros Hr Hint Hcall. pose proof (reachable_heap_inv s Hr) as Hinv.
  assert (Hfresh : heap s !! brk s = None).
  { destruct (heap s !! brk s) as [b|] eqn:E; [|reflexivity].
    destruct (Hinv _ _ E) as (_ & Hsz & Hend & _). c_arith. }
  destruct (reachable_call_cases s fuel size p s' Hr Hint Hcall)
    as (_ & [(Hp & Hh & _)|(Hsz & Hp & _ & Hh & _)]); rewrite Hh.
  - split; [auto|]. intros Hne. contradiction.
  - split.
    + intros a b Hab. rewrite lookup_insert_ne; [assumption|].
      intros <-. congruence.
    + intros _. subst p.
      replace (brk s + sizeof_Block - sizeof_Block) with (brk s) by lia.
      split; [assumption|]. split; [apply lookup_insert_eq|].
      intros a b Hab. destruct (Hinv _ _ Hab) as (_ & _ & Hend & _). lia.
Qed.

Lemma reachable_call_keeps_blocks_example :
  heap state_after_two_calls !! 4096 = Some (Block.mk 16 NULL 0)
  /\ heap state_after_one_call !! (4160 - sizeof_Block) = None.
Proof.
  destruct (reachable_call_keeps_blocks state_after_one_call 0 16 4160
              state_after_two_calls) as (Hold & Hnew).
  - exact state_after_one_call_reachable.
  - unfold int_range, INT_MIN, INT_MAX; lia.
  - reflexivity.
  - split.
    + apply Hold. reflexivity.
    + apply Hnew. discriminate.
Defined.

(** The call in a reachable state, computed. *)
Lemma reachable_call_eq s fuel size :
  reachable s -> 0 <= size <= INT_MAX ->
  my_malloc fuel size s
  = Some (if brk s + (size + sizeof_Block) <=? brk_limit s
          then (brk s + sizeof_Block,
                set_free_list NULL
                  (store_block (brk s) (Block.mk size NULL 0)
                     (sbrk_granted (size + sizeof_Block) s)))
          else (NULL, sbrk_refused (size + sizeof_Block) s)).
Proof.
  intros Hr Hsz.
  pose proof (reachable_free_list s Hr) as Hfl.
  destruct (reachable_break s Hr) as [Hb Hl].
  rewrite my_malloc_empty_catalog by (assumption || lia).
  destruct (Z.leb_spec (brk s + (size + sizeof_Block)) (brk_limit s))
    as [Hroom|Hno].
  - now rewrite first_block_granted.
  - now rewrite first_block_refused.
Qed.

(** X7: in a state the program can reach, a call with a valid size returns
    for any bound on the loop, and it succeeds exactly when the break can
    advance by [size + sizeof(Block)] bytes: memory is never reused.  On
    success the payload starts [sizeof(Block)] bytes above the old break and
    the break has advanced by exactly [size + sizeof(Block)]; on failure the
    break and the headers are unchanged. *)
Theorem reachable_call_cost s fuel size :
  reachable s -> 0 <= size <= INT_MAX ->
  exists p s',
    my_malloc fuel size s = Some (p, s')
    /\ (p <> NULL <-> brk s + (size + sizeof_Block) <= brk_limit s)
    /\ (p <> NULL ->
        p = brk s + sizeof_Block
        /\ brk s' = brk s + (size + sizeof_Block))
    /\ (p = NULL -> brk s' = brk s /\ heap s' = heap s).
Proof.
  intros Hr Hsz. rewrite reachable_call_eq by assumption.
  destruct (reachable_break s Hr) as [Hb Hl].
  destruct (Z.leb_spec (brk s + (size + sizeof_Block)) (brk_limit s))
    as [Hroom|Hno].
  - eexists _, _. split; [reflexivity|]. cbn.
    assert (Hp : brk s + sizeof_Block <> NULL) by c_arith.
    repeat split; try tauto; try contradiction.
  - eexists _, _. split; [reflexivity|]. cbn.
    repeat split; try congruence; try lia.
Qed.

Lemma reachable_call_cost_example :
  exists p s',
    my_malloc 0 0 state_after_one_call = Some (p, s')
    /\ (p <> NULL <-> 4136 + (0 + sizeof_Block) <= 65536).
Proof.
  destruct (reachable_call_cost state_after_one_call 0 0)
    as (p & s' & Hcall & Hiff & _).
  - exact state_after_one_call_reachable.
  - unfold INT_MAX; lia.
  - exists p, s'. split; [exact Hcall|exact Hiff].
Defined.

Lemma continues_reachable s s2 :
  reachable s -> continues s s2 ->
  reachable s2 /\ brk s <= brk s2 /\ brk_limit s2 = brk_limit s.
Proof.
  intros Hr. induction 1 as [s|s s1 fuel size p s2 _ IH Hint Hcall].
  - split; [assumption|]. split; [lia|reflexivity].
  - destruct (IH Hr) as (Hr1 & Hb & Hl).
    split; [now apply (reachable_call s1 fuel size p)|].
    destruct (reachable_call_cases s1 fuel size p s2 Hr1 Hint Hcall)
      as (Hlim & [(_ & _ & Hbrk & _)|(Hsz & _ & _ & _ & Hbrk & _)]);
      rewrite Hlim, Hbrk; split; (assumption || c_arith).
Qed.

(** X8: running out of memory is permanent.  When a call fails in a state
    the program can reach, then after any number of further calls every
    call for at least as many bytes fails too: the allocator never gives
    memory back. *)
Theorem out_of_memory_is_permanent s s2 fuel fuel' size size' :
  reachable s -> continues s s2 ->
  0 <= size -> size <= size' -> size' <= INT_MAX ->
  fst <$> my_malloc fuel size s = Some NULL ->
  fst <$> my_malloc fuel' size' s2 = Some NULL.
Proof.
  intros Hr Hcont H0 Hle Hmax Hfail.
  destruct (continues_reachable s s2 Hr Hcont) as (Hr2 & Hb & Hl).
  destruct (reachable_break s Hr) as [Hpos _].
  rewrite reachable_call_eq in Hfail by (assumption || lia).
  rewrite reachable_call_eq by (assumption || lia).
  destruct (Z.leb_spec (brk s + (size + sizeof_Block)) (brk_limit s))
    as [Hroom|Hno].
  - cbn in Hfail. injection Hfail as Hfail. c_arith.
  - destruct (Z.leb_spec (brk s2 + (size' + sizeof_Block)) (brk_limit s2))
      as [Hroom2|Hno2]; [lia|reflexivity].
Qed.

Lemma out_of_memory_is_permanent_example :
  exists s2,
    my_malloc 0 4 small_heap = Some (4120, s2)
    /\ fst <$> my_malloc 0 20 s2 = Some NULL.
Proof.
  eexists. split; [reflexivity|].
  apply (out_of_memory_is_permanent small_heap _ 0 0 16 20).
  - apply reachable_initial; unfold SIZE_MODULUS; lia.
  - apply (continues_call small_heap small_heap 0 4 4120).
    + apply continues_here.
    + unfold int_range, INT_MIN, INT_MAX; lia.
    + reflexivity.
  - lia.
  - lia.
  - unfold INT_MAX; lia.
  - reflexivity.
Defined.

(** ** Blocks taken from the catalog *)

Lemma search_sound size h : forall fuel current previous c p,
  search fuel size h current previous = Some (c, p) ->
  c <> NULL -> fits size h c = true.
Proof.
  induction fuel as [|fuel IH]; intros current previous c p.
  - cbn. destruct (Z.eqb_spec current NULL) as [E|E]; [|discriminate].
    intros [= <- <-] Hc. contradiction.
  - cbn. destruct (Z.eqb_spec current NULL) as [E|E].
    + intros [= <- <-] Hc. contradiction.
    + destruct (h !! current) as [b|] eqn:Hb; [|discriminate].
      destruct (qualifies size b) eqn:Hq.
      * intros [= <- <-] _. unfold fits. now rewrite Hb.
      * apply IH.
Qed.

(** X10: the bytes of a block taken from the catalog are all accounted
    for.  When the block is not split, its payload exceeds the request by at
    least one byte and at most [sizeof(Block) + 1] bytes.  When it is split,
    the remainder header starts exactly where the shrunk payload ends, the
    remainder has a payload of at least two bytes and ends exactly where the
    block ended before. *)
Theorem taken_block_accounting s l1 a l2 fuel size b :
  0 <= size <= INT_MAX ->
  catalog (heap s) (free_list s) (l1 ++ a :: l2) = true ->
  no_fit size (heap s) l1 = true -> fits size (heap s) a = true ->
  (length l1 < fuel)%nat ->
  heap s !! a = Some b -> 0 <= Block.size b < SIZE_MODULUS ->
  exists s' b',
    my_malloc fuel size s = Some (a + sizeof_Block, s')
    /\ heap s' !! a = Some b' /\ size <= Block.size b'
    /\ ((Block.size b' = Block.size b
         /\ 1 <= Block.size b - size <= sizeof_Block + 1
         /\ dom (heap s') = dom (heap s))
        \/ (Block.size b' = size
            /\ exists r,
                 heap s' !! (a + sizeof_Block + Block.size b') = Some r
                 /\ Block.is_free r = 1 /\ 2 <= Block.size r
                 /\ (a + sizeof_Block + Block.size b') + sizeof_Block
                    + Block.size r
                    = a + sizeof_Block + Block.size b)).
Proof.
  intros Hsz Hc Hn Ha Hlen Hb Hbs.
  rewrite (my_malloc_hit s l1 a l2 fuel size b) by (assumption || lia).
  pose proof Ha as Hq. unfold fits in Hq. rewrite Hb in Hq.
  apply (qualifies_spec size b Hsz) in Hq as [Hfree Hgt].
  unfold taken_heap. destruct (too_big size b) eqn:Hbig.
  - apply (too_big_spec size b Hsz) in Hbig.
    eexists _, _. split; [reflexivity|]. cbn [heap set_heap].
    split; [apply lookup_insert_eq|]. cbn [Block.size].
    rewrite to_size_t_nonneg by assumption. split; [lia|]. right.
    split; [reflexivity|]. eexists. split.
    { rewrite lookup_insert_ne by c_arith. apply lookup_insert_eq. }
    cbn [Block.size Block.is_free].
    assert (Hsub : size_t_sub (size_t_sub (Block.size b) sizeof_Block) size
                   = Block.size b - sizeof_Block - size).
    { unfold size_t_sub, SIZE_MODULUS, sizeof_Block, INT_MAX in *.
      rewrite (Z.mod_small (Block.size b - 24)) by lia.
      apply Z.mod_small. lia. }
    rewrite Hsub. split; [reflexivity|]. split; c_arith.
  - assert (Hsmall : Block.size b <= size + sizeof_Block + 1).
    { destruct (Z.le_gt_cases (Block.size b) (size + sizeof_Block + 1))
        as [H|H]; [assumption|].
      apply (too_big_spec size b Hsz) in H. congruence. }
    eexists _, _. split; [reflexivity|]. cbn [heap set_heap].
    split; [apply lookup_insert_eq|]. cbn [Block.size Block.set_is_free].
    split; [lia|]. left. split; [reflexivity|]. split; [lia|].
    apply dom_insert_lookup_L. eauto.
Qed.

Lemma taken_block_accounting_example :
  exists s' b',
    my_malloc 1 10 heap_with_free_block = Some (1000 + sizeof_Block, s')
    /\ heap s' !! 1000 = Some b' /\ 10 <= Block.size b'.
Proof.
  destruct (taken_block_accounting heap_with_free_block [] 1000 [2000] 1 10
              (Block.mk 100 2000 1))
    as (s' & b' & Hcall & Hb' & Hsz & _).
  - unfold INT_MAX; lia.
  - reflexivity.
  - reflexivity.
  - reflexivity.
  - cbn; lia.
  - reflexivity.
  - cbn; unfold SIZE_MODULUS; lia.
  - exists s', b'. auto.
Defined.

(** ** A catalog that is a cycle *)

(** X11: the walk has no guard against a catalog that loops back on
    itself.  When the walk starts in a set of blocks that is closed under
    [next] and none of which fits, no number of loop iterations is enough:
    [my_malloc] does not return. *)
Theorem cyclic_catalog_never_returns (P : Z -> Prop) size s :
  0 <= size ->
  (forall a, P a ->
     a <> NULL
     /\ exists b, heap s !! a = Some b
          /\ qualifies size b = false /\ P (Block.next b)) ->
  P (free_list s) ->
  forall fuel, my_malloc fuel size s = None.
Proof.
  intros Hsz Hclosed Hstart fuel.
  assert (Hsearch : forall fuel current previous,
            P current -> search fuel size (heap s) current previous = None).
  { clear fuel. induction fuel as [|fuel IH]; intros current previous Hcur;
      destruct (Hclosed _ Hcur) as (Hnn & b & Hb & Hq & Hnext);
      apply Z.eqb_neq in Hnn; cbn; rewrite Hnn; [reflexivity|].
    rewrite Hb, Hq. now apply IH. }
  unfold my_malloc.
  assert (Hs : (size <? 0) = false) by (apply Z.ltb_ge; lia).
  destruct (Hclosed _ Hstart) as (Hnn & _).
  apply Z.eqb_neq in Hnn. rewrite Hs, Hnn.
  unfold search_and_allocate. now rewrite Hsearch.
Qed.

Lemma cyclic_catalog_never_returns_example :
  my_malloc 1000 16 heap_with_cycle = None.
Proof.
  apply (cyclic_catalog_never_returns (fun a => a = 1000) 16 heap_with_cycle).
  - lia.
  - intros a ->. split; [discriminate|].
    exists (Block.mk 100 1000 0). repeat split; reflexivity.
  - reflexivity.
Defined.

(** ** The catalog invariant *)

Lemma granted_sub s lo hi lo' hi' :
  granted s lo hi = true -> lo <= lo' -> hi' <= hi ->
  granted s lo' hi' = true.
Proof.
  rewrite !granted_spec. intros (i & b & Hin & Hb & Hlo & Hhi) H1 H2.
  exists i, b. repeat split; (assumption || lia).
Qed.

Lemma granted_log_cons s s' e lo hi :
  sbrk_log s' = e :: sbrk_log s ->
  granted s lo hi = true -> granted s' lo hi = true.
Proof.
  unfold granted. intros -> H. cbn. rewrite H. apply orb_true_r.
Qed.

Lemma granted_same_log s s' lo hi :
  sbrk_log s' = sbrk_log s -> granted s' lo hi = granted s lo hi.
Proof. unfold granted. now intros ->. Qed.

Lemma consistent_inv s l :
  consistent s l = true ->
  catalog (heap s) (free_list s) l = true
  /\ 0 < brk s /\ brk_limit s < SIZE_MODULUS /\ log_ok s = true
  /\ (forall a, In a l ->
        exists b, heap s !! a = Some b
          /\ 0 <= Block.size b < SIZE_MODULUS
          /\ granted s a (a + sizeof_Block + Block.size b) = true
          /\ 0 < a /\ a + sizeof_Block + Block.size b <= brk s)
  /\ (forall a a', In a l -> In a' l -> a <> a' ->
        block_end (heap s) a <= a' \/ block_end (heap s) a' <= a).
Proof.
  unfold consistent. rewrite andb_true_iff, no_overlap_spec.
  intros [Hwf Hno]. destruct (wf_inv s l Hwf) as (Hc & Hb & Hl & Hblocks).
  unfold wf in Hwf. rewrite !andb_true_iff in Hwf. tauto.
Qed.

Lemma consistent_intro s l :
  catalog (heap s) (free_list s) l = true ->
  0 < brk s -> brk_limit s < SIZE_MODULUS -> log_ok s = true ->
  (forall a, In a l ->
     exists b, heap s !! a = Some b
       /\ 0 <= Block.size b < SIZE_MODULUS
       /\ granted s a (a + sizeof_Block + Block.size b) = true) ->
  (forall a a', In a l -> In a' l -> a <> a' ->
     block_end (heap s) a <= a' \/ block_end (heap s) a' <= a) ->
  consistent s l = true.
Proof.
  intros Hc Hb Hl Hlog Hblocks Hno.
  unfold consistent, wf.
  rewrite !andb_true_iff, !Z.ltb_lt, forallb_forall, no_overlap_spec.
  repeat split; try assumption.
  intros a Ha. destruct (Hblocks a Ha) as (b & Hab & [H0 H1] & Hg).
  unfold block_ok. rewrite Hab, !andb_true_iff, Z.leb_le, Z.ltb_lt. tauto.
Qed.

Lemma log_ok_granted t s :
  log_ok s = true -> 0 < brk s -> 0 <= t ->
  log_ok (sbrk_granted t s) = true.
Proof.
  unfold log_ok. intros Hlog Hb Ht. cbn.
  assert (H1 : (0 <? brk s) = true) by now apply Z.ltb_lt.
  rewrite H1, Z.leb_refl, orb_true_r. cbn.
  rewrite forallb_forall in Hlog |- *.
  intros [increment base] Hin. specialize (Hlog _ Hin). cbn in Hlog.
  apply orb_true_iff in Hlog as [Hfail|Hok]; [now rewrite Hfail|].
  apply andb_true_iff in Hok as [H3 H4]. rewrite H3.
  apply Z.leb_le in H4.
  assert (H5 : (base + increment <=? brk s + t) = true)
    by (apply Z.leb_le; lia).
  rewrite H5. apply orb_true_r.
Qed.

Lemma log_ok_refused t s : log_ok s = true -> log_ok (sbrk_refused t s) = true.
Proof. unfold log_ok. cbn. now rewrite Z.eqb_refl. Qed.

Lemma consistent_refused s l t :
  consistent s l = true -> consistent (sbrk_refused t s) l = true.
Proof.
  intros H.
  destruct (consistent_inv s l H) as (Hc & Hb & Hl & Hlog & Hblocks & Hno).
  apply consistent_intro;
    [assumption|assumption|assumption|now apply log_ok_refused| |assumption].
  intros a Ha. destruct (Hblocks a Ha) as (b & Hab & Hsz & Hg & _).
  exists b. split; [assumption|]. split; [assumption|].
  now apply (granted_log_cons s _ (t, SBRK_FAILED)).
Qed.

Lemma consistent_first_block s size :
  consistent s [] = true -> 0 <= size ->
  consistent
    (set_free_list NULL
       (store_block (brk s) (Block.mk size NULL 0)
          (sbrk_granted (size + sizeof_Block) s))) [] = true.
Proof.
  intros H Hsz.
  destruct (consistent_inv s [] H) as (Hc & Hb & Hl & Hlog & _).
  apply consistent_intro.
  - reflexivity.
  - cbn. c_arith.
  - assumption.
  - apply (log_ok_granted (size + sizeof_Block) s); (assumption || c_arith).
  - intros a [].
  - intros a a' [].
Qed.

Lemma consistent_appended s l size b_last :
  consistent s l = true -> l <> [] -> 0 <= size < SIZE_MODULUS ->
  brk s + (size + sizeof_Block) <= brk_limit s ->
  heap s !! List.last l NULL = Some b_last ->
  consistent
    (set_heap
       (<[List.last l NULL := Block.set_next (brk s) b_last]>
          (<[brk s := Block.mk size NULL 0]> (heap s)))
       (sbrk_granted (size + sizeof_Block) s))
    (l ++ [brk s]) = true.
Proof.
  intros H Hne Hsz Hroom Hbl.
  destruct (consistent_inv s l H) as (Hc & Hb & Hl & Hlog & Hblocks & Hno).
  assert (Hbelow : forall a, In a l -> a < brk s).
  { intros a Ha. destruct (Hblocks a Ha) as (b & _ & Hs & _ & _ & Hend).
    c_arith. }
  assert (Hfresh : ~ In (brk s) l).
  { intros Hin. apply Hbelow in Hin. lia. }
  pose proof (last_in l NULL Hne) as Hlast.
  set (h' := <[List.last l NULL := Block.set_next (brk s) b_last]>
               (<[brk s := Block.mk size NULL 0]> (heap s))).
  assert (Hold : forall a b, In a l -> heap s !! a = Some b ->
            exists b', h' !! a = Some b' /\ Block.size b' = Block.size b).
  { intros a b Ha Hab. unfold h'.
    destruct (Z.eq_dec (List.last l NULL) a) as [He|Hd].
    - rewrite He in *. rewrite lookup_insert_eq.
      rewrite Hbl in Hab. injection Hab as <-. eauto.
    - rewrite !lookup_insert_ne; [eauto|..]; [|assumption].
      intros <-. now apply Hfresh. }
  assert (Hnew : h' !! brk s = Some (Block.mk size NULL 0)).
  { unfold h'. rewrite lookup_insert_ne, lookup_insert_eq; [reflexivity|].
    intros He. apply Hfresh. now rewrite <- He. }
  assert (Hend : forall a, In a l -> block_end h' a = block_end (heap s) a).
  { intros a Ha. destruct (Hblocks a Ha) as (b & Hab & _).
    destruct (Hold a b Ha Hab) as (b' & Hab' & Hs).
    now rewrite (block_end_lookup _ _ _ Hab), (block_end_lookup _ _ _ Hab'),
      Hs. }
  assert (Hendle : forall a, In a l -> block_end (heap s) a <= brk s).
  { intros a Ha. destruct (Hblocks a Ha) as (b & Hab & _ & _ & _ & He).
    now rewrite (block_end_lookup _ _ _ Hab). }
  apply consistent_intro.
  - cbn [heap free_list set_heap sbrk_granted]. unfold h'.
    apply catalog_append; try assumption; [c_arith|reflexivity].
  - cbn. c_arith.
  - assumption.
  - apply (log_ok_granted (size + sizeof_Block) s); (assumption || c_arith).
  - intros a Ha. cbn [heap set_heap]. apply in_app_or in Ha as [Ha|[<-|[]]].
    + destruct (Hblocks a Ha) as (b & Hab & Hs & Hg & _).
      destruct (Hold a b Ha Hab) as (b' & Hab' & Hs').
      exists b'. rewrite Hs'. repeat split; try assumption; try lia.
      now apply (granted_log_cons s _ (size + sizeof_Block, brk s)).
    + exists (Block.mk size NULL 0). split; [assumption|]. split; [assumption|].
      apply granted_spec. exists (size + sizeof_Block), (brk s). cbn.
      repeat split; [now left|c_arith|lia|lia].
  - cbn [heap set_heap]. intros a a' Ha Ha' Hd.
    apply in_app_or in Ha as [Ha|[<-|[]]];
      apply in_app_or in Ha' as [Ha'|[<-|[]]].
    + rewrite !Hend by assumption. now apply Hno.
    + left. rewrite Hend by assumption. now apply Hendle.
    + right. rewrite Hend by assumption. now apply Hendle.
    + congruence.
Qed.

Lemma consistent_taken_whole s l a b :
  consistent s l = true -> heap s !! a = Some b ->
  consistent (set_heap (<[a := Block.set_is_free 0 b]> (heap s)) s) l = true.
Proof.
  intros H Hab.
  destruct (consistent_inv s l H) as (Hc & Hb & Hl & Hlog & Hblocks & Hno).
  set (h' := <[a := Block.set_is_free 0 b]> (heap s)).
  assert (Hold : forall x bx, heap s !! x = Some bx ->
            exists b', h' !! x = Some b' /\ Block.size b' = Block.size bx
                       /\ Block.next b' = Block.next bx).
  { intros x bx Hx. unfold h'. destruct (Z.eq_dec a x) as [<-|Hd].
    - rewrite lookup_insert_eq. rewrite Hab in Hx. injection Hx as <-. eauto.
    - rewrite lookup_insert_ne by assumption. eauto. }
  assert (Hend : forall x, In x l -> block_end h' x = block_end (heap s) x).
  { intros x Hx. destruct (Hblocks x Hx) as (bx & Hbx & _).
    destruct (Hold x bx Hbx) as (b' & Hb' & Hs & _).
    now rewrite (block_end_lookup _ _ _ Hbx), (block_end_lookup _ _ _ Hb'),
      Hs. }
  apply consistent_intro; try assumption.
  - cbn [heap free_list set_heap]. rewrite <- Hc. symmetry.
    apply catalog_agree. intros x Hx.
    destruct (Hblocks x Hx) as (bx & Hbx & _).
    destruct (Hold x bx Hbx) as (b' & Hb' & _ & Hn).
    fold h'. rewrite Hbx, Hb'. cbn. now rewrite Hn.
  - intros x Hx. cbn [heap set_heap].
    destruct (Hblocks x Hx) as (bx & Hbx & Hs & Hg & _).
    destruct (Hold x bx Hbx) as (b' & Hb' & Hs' & _).
    exists b'. rewrite Hs'. repeat split; try assumption; lia.
  - cbn [heap set_heap]. intros x x' Hx Hx' Hd.
    fold h'. rewrite !Hend by assumption. now apply Hno.
Qed.

Lemma in_spliced (x a nb : Z) l1 l2 :
  In x (l1 ++ a :: nb :: l2) <-> x = nb \/ In x (l1 ++ a :: l2).
Proof. rewrite !in_app_iff. cbn. intuition congruence. Qed.

Lemma consistent_split s l1 a l2 b size :
  consistent s (l1 ++ a :: l2) = true -> heap s !! a = Some b ->
  0 <= size -> size + sizeof_Block + 1 < Block.size b ->
  consistent
    (set_heap
       (<[a := Block.mk size (a + sizeof_Block + size) 0]>
          (<[a + sizeof_Block + size :=
               Block.mk (Block.size b - sizeof_Block - size)
                        (Block.next b) 1]> (heap s))) s)
    (l1 ++ a :: (a + sizeof_Block + size) :: l2) = true.
Proof.
  intros H Hab Hsz Hbig.
  destruct (consistent_inv _ _ H) as (Hc & Hb & Hl & Hlog & Hblocks & Hno).
  set (l := l1 ++ a :: l2) in *.
  set (nb := a + sizeof_Block + size).
  set (h' := <[a := Block.mk size nb 0]>
               (<[nb := Block.mk (Block.size b - sizeof_Block - size)
                                 (Block.next b) 1]> (heap s))).
  assert (Hain : In a l) by (apply in_or_app; right; now left).
  destruct (Hblocks a Hain) as (b0 & Hab0 & Hbs & Hga & Hapos & Haend).
  rewrite Hab in Hab0. injection Hab0 as <-.
  assert (Hnbdef : nb = a + sizeof_Block + size) by reflexivity.
  assert (Hnba : a < nb) by c_arith.
  assert (HEa : block_end (heap s) a = a + sizeof_Block + Block.size b)
    by now apply block_end_lookup.
  assert (Hfresh : ~ In nb l).
  { intros Hin. destruct (Z.eq_dec a nb) as [He|Hd]; [lia|].
    destruct (Hblocks nb Hin) as (bn & Hbn & Hbns & _).
    pose proof (block_end_lookup _ _ _ Hbn) as HEn.
    destruct (Hno a nb Hain Hin Hd) as [Hle|Hle]; unfold nb in *; c_arith. }
  assert (Hla : h' !! a = Some (Block.mk size nb 0))
    by apply lookup_insert_eq.
  assert (Hlnb : h' !! nb
                 = Some (Block.mk (Block.size b - sizeof_Block - size)
                                  (Block.next b) 1)).
  { unfold h'. rewrite lookup_insert_ne by lia. apply lookup_insert_eq. }
  assert (Hlx : forall x, In x l -> x <> a -> h' !! x = heap s !! x).
  { intros x Hx Hd. unfold h'. rewrite !lookup_insert_ne; [reflexivity|..].
    - intros <-. now apply Hfresh.
    - congruence. }
  assert (HE'a : block_end h' a = nb).
  { rewrite (block_end_lookup _ _ _ Hla). reflexivity. }
  assert (HE'nb : block_end h' nb = block_end (heap s) a).
  { rewrite (block_end_lookup _ _ _ Hlnb), HEa. cbn. unfold nb. lia. }
  assert (HE'x : forall x, In x l -> x <> a ->
            block_end h' x = block_end (heap s) x).
  { intros x Hx Hd. unfold block_end. now rewrite Hlx. }
  apply consistent_intro; try assumption.
  - cbn [heap free_list set_heap]. unfold h'.
    apply catalog_splice with (b := b); try assumption; try reflexivity.
    c_arith.
  - cbn [heap set_heap]. intros x Hx. apply in_spliced in Hx as [->|Hx].
    + eexists. split; [exact Hlnb|]. cbn [Block.size].
      split; [c_arith|].
      apply granted_sub with (lo := a)
        (hi := a + sizeof_Block + Block.size b); [assumption|lia|].
      unfold nb. lia.
    + destruct (Z.eq_dec x a) as [->|Hd].
      * eexists. split; [exact Hla|]. cbn [Block.size].
        split; [c_arith|].
        apply granted_sub with (lo := a)
          (hi := a + sizeof_Block + Block.size b);
          [assumption|lia|c_arith].
      * destruct (Hblocks x Hx) as (bx & Hbx & Hs & Hg & _).
        exists bx. rewrite Hlx by assumption. auto.
  - cbn [heap set_heap]. fold h'. intros x y Hx Hy Hd.
    assert (Hcase : forall z, In z l ->
              z = a \/ (z <> a /\ block_end h' z = block_end (heap s) z
                        /\ (block_end (heap s) a <= z
                            \/ block_end (heap s) z <= a))).
    { intros z Hz. destruct (Z.eq_dec z a) as [|Hza]; [now left|].
      right. split; [assumption|]. split; [now apply HE'x|].
      apply Hno; (assumption || congruence). }
    apply in_spliced in Hx as [->|Hx]; apply in_spliced in Hy as [->|Hy].
    + congruence.
    + destruct (Hcase y Hy) as [->|(Hya & HEy & Hsep)].
      * right. c_arith.
      * rewrite HE'nb, HEy. c_arith.
    + destruct (Hcase x Hx) as [->|(Hxa & HEx & Hsep)].
      * left. c_arith.
      * rewrite HE'nb, HEx. c_arith.
    + destruct (Hcase x Hx) as [->|(Hxa & HEx & Hsepx)];
        destruct (Hcase y Hy) as [->|(Hya & HEy & Hsepy)].
      * congruence.
      * rewrite HE'a, HEy. c_arith.
      * rewrite HE'a, HEx. c_arith.
      * rewrite HEx, HEy. now apply Hno.
Qed.

(** X12: consistency of the catalog is an invariant of [my_malloc].  From a
    well-formed state whose catalog blocks do not overlap, a call with any
    [int] argument returns and leaves such a state again: its catalog is a
    finite chain that ends in [NULL], every block of it lies inside memory
    obtained from [sbrk], and no two of them overlap.  The catalog is the
    old one, or the old one with the remainder of a split inserted behind
    the block that was split, or the old one with the new block appended. *)
Theorem my_malloc_keeps_catalog_consistent s l fuel size :
  consistent s l = true -> (length l <= fuel)%nat -> int_range size ->
  exists p s' l',
    my_malloc fuel size s = Some (p, s')
    /\ consistent s' l' = true
    /\ (l' = l
        \/ (l <> [] /\ l' = l ++ [brk s])
        \/ exists l1 a l2,
             l = l1 ++ a :: l2
             /\ l' = l1 ++ a :: (a + sizeof_Block + size) :: l2).
Proof.
  intros H Hlen [Hlo Hhi].
  destruct (Z.ltb_spec size 0) as [Hneg|Hpos].
  { exists NULL, s, l. unfold my_malloc. apply Z.ltb_lt in Hneg.
    rewrite Hneg. auto. }
  assert (Hsz : 0 <= size <= INT_MAX) by lia.
  destruct (consistent_inv s l H) as (Hc & Hb & Hl & Hlog & Hblocks & Hno).
  destruct (first_fit_split size (heap s) l)
    as [Hn|(l1 & a & l2 & El & Hn & Ha)].
  - destruct (Z.le_gt_cases (brk s + (size + sizeof_Block)) (brk_limit s))
      as [Hroom|Hrefused].
    + destruct l as [|x l0] eqn:El.
      * cbn in Hc. apply Z.eqb_eq in Hc.
        rewrite my_malloc_empty_catalog, first_block_granted
          by (assumption || lia).
        eexists _, _, []. split; [reflexivity|].
        split; [now apply consistent_first_block|now left].
      * rewrite <- El in *. assert (Hne : l <> []) by congruence.
        pose proof (last_in l NULL Hne) as Hin.
        destruct (Hblocks _ Hin) as (bl & Hbl & Hbls & _ & Hpos' & Hend).
        rewrite (my_malloc_appended s l fuel size bl)
          by (assumption || c_arith).
        eexists _, _, (l ++ [brk s]). split; [reflexivity|]. split.
        { apply consistent_appended; (assumption || c_arith). }
        right. left. now split.
    + rewrite (my_malloc_refused s l fuel size) by assumption.
      eexists _, _, l. split; [reflexivity|].
      split; [now apply consistent_refused|now left].
  - subst l.
    assert (Hin : In a (l1 ++ a :: l2)) by (apply in_or_app; right; now left).
    destruct (Hblocks _ Hin) as (b & Hab & Hbs & _).
    assert (Hlen' : (length l1 < fuel)%nat).
    { rewrite length_app in Hlen. cbn in Hlen. lia. }
    rewrite (my_malloc_hit s l1 a l2 fuel size b) by (assumption || lia).
    unfold taken_heap. destruct (too_big size b) eqn:Hbig.
    + apply (too_big_spec size b Hsz) in Hbig.
      rewrite to_size_t_nonneg by assumption.
      assert (Hsub : size_t_sub (size_t_sub (Block.size b) sizeof_Block) size
                     = Block.size b - sizeof_Block - size).
      { unfold size_t_sub, SIZE_MODULUS, sizeof_Block, INT_MAX in *.
        rewrite (Z.mod_small (Block.size b - 24)) by lia.
        apply Z.mod_small. lia. }
      rewrite Hsub.
      eexists _, _, (l1 ++ a :: (a + sizeof_Block + size) :: l2).
      split; [reflexivity|]. split.
      { apply consistent_split; (assumption || lia). }
      right. right. eauto.
    + eexists _, _, (l1 ++ a :: l2). split; [reflexivity|].
      split; [now apply consistent_taken_whole|now left].
Qed.

Lemma my_malloc_keeps_catalog_consistent_example :
  exists p s' l',
    my_malloc 2 10 heap_with_free_block = Some (p, s')
    /\ consistent s' l' = true.
Proof.
  destruct (my_malloc_keeps_catalog_consistent heap_with_free_block
              [1000; 2000] 2 10) as (p & s' & l' & Hcall & Hinv & _).
  - reflexivity.
  - cbn; lia.
  - unfold int_range, INT_MIN, INT_MAX; lia.
  - exists p, s', l'. split; [exact Hcall|exact Hinv].
Defined.

(** ** Blocks in use *)

Lemma search_fuel_mono size h : forall fuel fuel' current previous r,
  search fuel size h current previous = Some r -> (fuel <= fuel')%nat ->
  search fuel' size h current previous = Some r.
Proof.
  induction fuel as [|fuel IH]; intros fuel' current previous r H Hle.
  - cbn in H. destruct (current =? NULL) eqn:E; [|discriminate].
    destruct fuel'; cbn; now rewrite E.
  - destruct fuel' as [|fuel']; [lia|]. cbn in H |- *.
    destruct (current =? NULL); [assumption|].
    destruct (h !! current) as [b|]; [|discriminate].
    destruct (qualifies size b); [assumption|].
    apply IH; [assumption|lia].
Qed.

(** A call that returns within some number of loop iterations returns the
    same with any larger bound. *)
Lemma my_malloc_fuel_mono fuel fuel' size s r :
  my_malloc fuel size s = Some r -> (fuel <= fuel')%nat ->
  my_malloc fuel' size s = Some r.
Proof.
  intros H Hle.
  assert (Hsa : forall t st,
            search_and_allocate fuel size t st = Some r ->
            search_and_allocate fuel' size t st = Some r).
  { unfold search_and_allocate. intros t st Hs.
    destruct (search fuel size (heap st) (free_list st) NULL)
      as [[c pr]|] eqn:E; [|discriminate].
    now rewrite (search_fuel_mono _ _ _ _ _ _ _ E Hle). }
  unfold my_malloc in H |- *.
  destruct (size <? 0); [assumption|].
  destruct (free_list s =? NULL); [|now apply Hsa].
  destruct (request_memory _ s) as [newblock s1].
  destruct (newblock =? NULL); [assumption|].
  cbn [negb] in H |- *. assumption.
Qed.

(** The address at which a split writes the remainder header is the address
    of no block of a consistent catalog. *)
Lemma split_address_fresh s l c b size :
  consistent s l = true -> In c l -> heap s !! c = Some b ->
  0 <= size -> size + sizeof_Block + 1 < Block.size b ->
  ~ In (c + sizeof_Block + size) l.
Proof.
  intros H Hc Hb Hsz Hbig Hin.
  destruct (consistent_inv s l H) as (_ & _ & _ & _ & Hblocks & Hno).
  destruct (Hblocks _ Hin) as (bn & Hbn & Hbns & _).
  pose proof (block_end_lookup _ _ _ Hbn) as HEn.
  pose proof (block_end_lookup _ _ _ Hb) as HEc.
  assert (Hne : c <> c + sizeof_Block + size) by c_arith.
  destruct (Hno _ _ Hc Hin Hne); c_arith.
Qed.

(** One call in a consistent state in which the catalog block at [a] is in
    use: the call does not return the payload of that block, and the block
    is still in the catalog and in use afterwards. *)
Lemma block_in_use_step s l a b fuel size p s' :
  consistent s l = true -> In a l ->
  heap s !! a = Some b -> Block.is_free b = 0 ->
  int_range size -> my_malloc fuel size s = Some (p, s') ->
  p <> a + sizeof_Block
  /\ exists l' b',
       consistent s' l' = true /\ In a l'
       /\ heap s' !! a = Some b' /\ Block.is_free b' = 0.
Proof.
  intros H Ha Hab Hfree [Hlo Hhi] Hcall.
  destruct (consistent_inv s l H) as (Hc & Hb & Hl & Hlog & Hblocks & Hno).
  destruct (Hblocks a Ha) as (b0 & Hab0 & Hbs & _ & Hapos & Haend).
  rewrite Hab in Hab0. injection Hab0 as <-.
  destruct (Z.ltb_spec size 0) as [Hneg|Hpos].
  { unfold my_malloc in Hcall. apply Z.ltb_lt in Hneg.
    rewrite Hneg in Hcall. injection Hcall as <- <-.
    split; [c_arith|]. exists l, b. auto. }
  assert (Hsz : 0 <= size <= INT_MAX) by lia.
  apply my_malloc_fuel_mono with (fuel' := Nat.max fuel (length l)) in Hcall;
    [|lia].
  assert (Hlen : (length l <= Nat.max fuel (length l))%nat) by lia.
  revert Hcall Hlen. generalize (Nat.max fuel (length l)). intros f Hcall Hlen.
  destruct (first_fit_split size (heap s) l)
    as [Hn|(l1 & c & l2 & El & Hn & Hfit)].
  - assert (Hne : l <> []) by (intros ->; destruct Ha).
    destruct (Z.le_gt_cases (brk s + (size + sizeof_Block)) (brk_limit s))
      as [Hroom|Hrefused].
    + pose proof (last_in l NULL Hne) as Hin.
      destruct (Hblocks _ Hin) as (bl & Hbl & Hbls & _ & Hpos' & Hend).
      rewrite (my_malloc_appended s l f size bl) in Hcall
        by (assumption || c_arith).
      injection Hcall as <- <-.
      split; [c_arith|].
      exists (l ++ [brk s]).
      assert (Hcons : consistent
                (set_heap
                   (<[List.last l NULL := Block.set_next (brk s) bl]>
                      (<[brk s := Block.mk size NULL 0]> (heap s)))
                   (sbrk_granted (size + sizeof_Block) s))
                (l ++ [brk s]) = true)
        by (apply consistent_appended; (assumption || c_arith)).
      cbn [heap set_heap].
      destruct (Z.eq_dec (List.last l NULL) a) as [He|Hd].
      * exists (Block.set_next (brk s) bl).
        split; [assumption|]. split; [apply in_or_app; now left|].
        rewrite He, lookup_insert_eq. split; [reflexivity|].
        rewrite He, Hab in Hbl. injection Hbl as <-. exact Hfree.
      * exists b. split; [assumption|]. split; [apply in_or_app; now left|].
        rewrite !lookup_insert_ne; [now split|c_arith|assumption].
    + rewrite (my_malloc_refused s l f size) in Hcall by assumption.
      injection Hcall as <- <-. split; [c_arith|].
      exists l, b. split; [now apply consistent_refused|]. auto.
  - subst l.
    assert (Hin : In c (l1 ++ c :: l2)) by (apply in_or_app; right; now left).
    destruct (Hblocks _ Hin) as (bc & Hbc & Hbcs & _).
    assert (Hlen' : (length l1 < f)%nat).
    { rewrite length_app in Hlen. cbn in Hlen. lia. }
    rewrite (my_malloc_hit s l1 c l2 f size bc) in Hcall
      by (assumption || lia).
    injection Hcall as <- <-.
    pose proof Hfit as Hq. unfold fits in Hq. rewrite Hbc in Hq.
    apply (qualifies_spec size bc Hsz) in Hq as [Hfc Hgt].
    assert (Hca : c <> a).
    { intros ->. rewrite Hab in Hbc. injection Hbc as <-. lia. }
    split; [lia|]. cbn [heap set_heap].
    unfold taken_heap. destruct (too_big size bc) eqn:Hbig.
    + apply (too_big_spec size bc Hsz) in Hbig.
      rewrite to_size_t_nonneg by assumption.
      assert (Hsub :
        size_t_sub (size_t_sub (Block.size bc) sizeof_Block) size
        = Block.size bc - sizeof_Block - size).
      { unfold size_t_sub, SIZE_MODULUS, sizeof_Block, INT_MAX in *.
        rewrite (Z.mod_small (Block.size bc - 24)) by lia.
        apply Z.mod_small. lia. }
      rewrite Hsub.
      exists (l1 ++ c :: (c + sizeof_Block + size) :: l2), b.
      split; [apply consistent_split; (assumption || lia)|].
      split; [apply in_spliced; now right|].
      split; [|assumption].
      rewrite !lookup_insert_ne; [assumption| |assumption].
      intros He.
      apply (split_address_fresh s (l1 ++ c :: l2) c bc size);
        try assumption; try lia.
      now rewrite He.
    + exists (l1 ++ c :: l2), b.
      split; [now apply consistent_taken_whole|].
      split; [assumption|]. split; [|assumption].
      now rewrite lookup_insert_ne.
Qed.

(** X9: in a consistent state, a block that [my_malloc] hands out from the
    catalog is never handed out a second time: after any number of further
    calls its header still says in use, and no call returns its payload
    again. *)
Theorem taken_block_never_handed_out_again s l1 a l2 fuel size b :
  0 <= size <= INT_MAX ->
  consistent s (l1 ++ a :: l2) = true ->
  no_fit size (heap s) l1 = true -> fits size (heap s) a = true ->
  (length l1 < fuel)%nat -> heap s !! a = Some b ->
  exists s1,
    my_malloc fuel size s = Some (a + sizeof_Block, s1)
    /\ forall s2, continues s1 s2 ->
         (exists b2, heap s2 !! a = Some b2 /\ Block.is_free b2 = 0)
         /\ forall fuel' size' p s3,
              int_range size' ->
              my_malloc fuel' size' s2 = Some (p, s3) ->
              p <> a + sizeof_Block.
Proof.
  intros Hsz H Hn Hfit Hlen Hab.
  destruct (consistent_inv _ _ H) as (Hc & _ & _ & _ & Hblocks & _).
  assert (Hin : In a (l1 ++ a :: l2)) by (apply in_or_app; right; now left).
  destruct (Hblocks _ Hin) as (b0 & Hab0 & Hbs & _).
  rewrite Hab in Hab0. injection Hab0 as <-.
  rewrite (my_malloc_hit s l1 a l2 fuel size b) by (assumption || lia).
  eexists. split; [reflexivity|].
  set (s1 := set_heap (taken_heap size a b (heap s)) s).
  assert (Hinv1 : exists l' b',
            consistent s1 l' = true /\ In a l'
            /\ heap s1 !! a = Some b' /\ Block.is_free b' = 0).
  { unfold s1, taken_heap. destruct (too_big size b) eqn:Hbig.
    - apply (too_big_spec size b Hsz) in Hbig.
      rewrite to_size_t_nonneg by assumption.
      assert (Hsub :
        size_t_sub (size_t_sub (Block.size b) sizeof_Block) size
        = Block.size b - sizeof_Block - size).
      { unfold size_t_sub, SIZE_MODULUS, sizeof_Block, INT_MAX in *.
        rewrite (Z.mod_small (Block.size b - 24)) by lia.
        apply Z.mod_small. lia. }
      rewrite Hsub.
      eexists (l1 ++ a :: (a + sizeof_Block + size) :: l2), _.
      split; [apply consistent_split; (assumption || lia)|].
      split; [apply in_spliced; now right|]. cbn [heap set_heap].
      rewrite lookup_insert_eq. split; reflexivity.
    - eexists (l1 ++ a :: l2), _.
      split; [now apply consistent_taken_whole|].
      split; [assumption|]. cbn [heap set_heap].
      rewrite lookup_insert_eq. split; reflexivity. }
  clearbody s1.
  assert (Hinv : forall s2, continues s1 s2 ->
            exists l' b',
              consistent s2 l' = true /\ In a l'
              /\ heap s2 !! a = Some b' /\ Block.is_free b' = 0).
  { intros s2 Hcont.
    induction Hcont as [s1|s1 s1' f sz p s2 _ IH Hint Hcall];
      [assumption|].
    destruct (IH Hinv1) as (l' & b' & Hcons & Hin' & Hb' & Hf').
    now destruct (block_in_use_step s1' l' a b' f sz p s2
                    Hcons Hin' Hb' Hf' Hint Hcall) as (_ & Hnext). }
  intros s2 Hcont.
  destruct (Hinv s2 Hcont) as (l' & b' & Hcons & Hin' & Hb' & Hf').
  split; [eauto|].
  intros fuel' size' p s3 Hint Hcall.
  now destruct (block_in_use_step s2 l' a b' fuel' size' p s3
                  Hcons Hin' Hb' Hf' Hint Hcall) as (Hp & _).
Qed.

Lemma taken_block_never_handed_out_again_example :
  exists s1,
    my_malloc 1 10 heap_with_free_block = Some (1000 + sizeof_Block, s1)
    /\ forall p s3, my_malloc 5 10 s1 = Some (p, s3) ->
         p <> 1000 + sizeof_Block.
Proof.
  destruct (taken_block_never_handed_out_again heap_with_free_block [] 1000
              [2000] 1 10 (Block.mk 100 2000 1))
    as (s1 & Hcall & Hnever).
  - unfold INT_MAX; lia.
  - reflexivity.
  - reflexivity.
  - reflexivity.
  - cbn; lia.
  - reflexivity.
  - exists s1. split; [exact Hcall|]. intros p s3.
    apply (proj2 (Hnever s1 (continues_here s1))).
    unfold int_range, INT_MIN, INT_MAX; lia.
Defined.
